(** * connect-typeorm: the TypeormStore session store

    A shallow embedding of [src/app/TypeormStore/TypeormStore.ts] (and of the
    older copy of the same class kept in the repository), together with the
    properties of its expiration and life-cycle engine.

    Conventions of the embedding:
    - JavaScript numbers are integers ([Z]): millisecond time stamps and
      second counts, for which double arithmetic is exact;
    - an [async] method is a computation in the monad [M]: it threads the
      world (the session table behind the repository, a counter of awaited
      repository calls, the observable events) and either returns or throws;
    - the record repository is TypeORM's; it is an external collaborator,
      modelled as an in-memory table with soft deletion whose calls may also
      fail as the host environment decides;
    - [this.debug(...)] only writes a diagnostic line and is left out. *)

From Stdlib Require Import ZArith String Ascii List DecimalString DecimalZ.
From stdpp Require Import base gmap strings list fin_maps.

#[local] Open Scope string_scope.
#[local] Open Scope Z_scope.
#[local] Open Scope list_scope.

(** ** Errors and outcomes *)

(** The errors that travel through the store. *)
Inductive Error :=
| NotConnected                      (* new Error('Not connected') *)
| EntityNotFoundError               (* findOneOrFail found no row *)
| QueryFailedError (reason : string) (* the storage engine rejected a call *)
| TypeError (message : string)
| SyntaxError (message : string)
| UserError (message : string).     (* thrown by code supplied by the host *)

(** A JavaScript evaluation either returns a value or throws. *)
Inductive Outcome (A : Type) :=
| Returned (a : A)
| Threw (e : Error).

Arguments Returned {A} a.
Arguments Threw {A} e.

#[global] Instance Outcome_ret : MRet Outcome := λ A a, Returned a.

#[global] Instance Outcome_bind : MBind Outcome := λ A B f m,
  match m with
  | Returned a => f a
  | Threw e => Threw e
  end.

Definition returned {A} (o : Outcome A) : bool :=
  match o with Returned _ => true | Threw _ => false end.

(** ** JavaScript values *)

#[local] Set Warnings "-register-all".

Inductive JsValue :=
| JsUndefined
| JsNull
| JsBoolean (b : bool)
| JsNumber (n : Z)
| JsBigInt (n : Z)
| JsString (s : string)
| JsArray (items : list JsValue)
| JsObject (props : list (string * JsValue)).

(** express-session's [SessionData] is an object; at run time any value can
    arrive, so the type is not narrowed. *)
Definition SessionData : Type := JsValue.

Fixpoint own_property (k : string) (props : list (string * JsValue)) : JsValue :=
  match props with
  | [] => JsUndefined
  | (k', v) :: rest => if String.eqb k' k then v else own_property k rest
  end.

(** [v.k] for the property names the store reads ([cookie], [maxAge]):
    reading a property of [undefined] or [null] throws a TypeError, a missing
    property reads as [undefined]. *)
Definition get_prop (v : JsValue) (k : string) : Outcome JsValue :=
  match v with
  | JsUndefined => Threw (TypeError ("Cannot read properties of undefined (reading '" +:+ k +:+ "')"))
  | JsNull => Threw (TypeError ("Cannot read properties of null (reading '" +:+ k +:+ "')"))
  | JsObject props => Returned (own_property k props)
  | _ => Returned JsUndefined
  end.

(** [o[k] = v] on an object literal under construction: an existing key keeps
    its position and takes the new value. *)
Fixpoint set_property (k : string) (v : JsValue) (props : list (string * JsValue))
  : list (string * JsValue) :=
  match props with
  | [] => [(k, v)]
  | (k', v') :: rest =>
      if String.eqb k' k then (k', v) :: rest else (k', v') :: set_property k v rest
  end.

Definition string_of_Z (n : Z) : string := NilZero.string_of_int (Z.to_int n).

Fixpoint indexed {A} (i : nat) (xs : list A) : list (string * A) :=
  match xs with
  | [] => []
  | x :: rest => (string_of_Z (Z.of_nat i), x) :: indexed (S i) rest
  end.

(** The own enumerable properties copied by [{ ...v }]. *)
Definition spread (v : JsValue) : list (string * JsValue) :=
  match v with
  | JsObject props => props
  | JsArray items => indexed 0 items
  | JsString s => indexed 0 ((λ c, JsString (String c EmptyString)) <$> list_ascii_of_string s)
  | _ => []
  end.

(** ** The session record *)

(** A session id column holds a string; [cleanup] also provides for numeric
    ids ([typeof x.id === "string"] and its [else] branch). *)
Inductive Id :=
| IdString (s : string)
| IdNumber (n : Z).

#[global] Instance Id_eq_dec : EqDecision Id.
Proof. solve_decision. Defined.

#[global] Instance Id_countable : Countable Id.
Proof.
  refine (inj_countable'
            (λ i, match i with IdString s => inl s | IdNumber n => inr n end)
            (λ x, match x with inl s => IdString s | inr n => IdNumber n end) _).
  by intros [].
Defined.

(** Modelled from the spec: the entity interface [ISession]
    ([../../domain/Session/ISession], not among the sources). Spec section 3:
    [id] is the primary key, [json] the opaque serialized payload, [expiredAt]
    an epoch-millisecond time stamp, [destroyedAt] a nullable time stamp whose
    presence marks the record soft-deleted. *)
Record ISession := {
  id : Id;
  json : string;
  expiredAt : Z;
  destroyedAt : option Z;
}.

(** The columns of a row other than its primary key. *)
Record Columns := {
  col_json : string;
  col_expiredAt : Z;
  col_destroyedAt : option Z;
}.

Definition row_of (kv : Id * Columns) : ISession :=
  {| id := kv.1; json := col_json kv.2; expiredAt := col_expiredAt kv.2;
     destroyedAt := col_destroyedAt kv.2 |}.

Definition columns_of (r : ISession) : Columns :=
  {| col_json := json r; col_expiredAt := expiredAt r; col_destroyedAt := destroyedAt r |}.

(** Spec section 3: a record is visible to readers at time [now] iff it is
    not soft-deleted and not expired. *)
Definition visible (now : Z) (r : ISession) : Prop :=
  destroyedAt r = None ∧ now < expiredAt r.

(** ** The record repository

    The statements the store sends to TypeORM, as data. A query builder chain
    of the source is the corresponding chain of the functions below. *)

Inductive Cond :=
| ExpiredAtGt (t : Z)     (* session.expiredAt > :expiredAt *)
| ExpiredAtLe (t : Z)     (* session.expiredAt <= ${now} *)
| IdEq (sid : string).    (* session.id = :id *)

Record Select := {
  sel_withDeleted : bool;
  sel_where : list Cond;
  sel_limit : option Z;
}.

Definition createQueryBuilder_session : Select :=
  {| sel_withDeleted := false; sel_where := []; sel_limit := None |}.

Definition withDeleted (q : Select) : Select :=
  {| sel_withDeleted := true; sel_where := sel_where q; sel_limit := sel_limit q |}.

Definition where_ (c : Cond) (q : Select) : Select :=
  {| sel_withDeleted := sel_withDeleted q; sel_where := [c]; sel_limit := sel_limit q |}.

Definition andWhere (c : Cond) (q : Select) : Select :=
  {| sel_withDeleted := sel_withDeleted q; sel_where := sel_where q ++ [c];
     sel_limit := sel_limit q |}.

Definition limit (n : Z) (q : Select) : Select :=
  {| sel_withDeleted := sel_withDeleted q; sel_where := sel_where q; sel_limit := Some n |}.

(** What stands between the parentheses of [id IN (...)]: the text of a
    nested select ([getQuery()]) or a hand-written list of literals. *)
Inductive InList :=
| InSubquery (q : Select)
| InLiterals (text : string).

Record Criteria := {
  where_id : string;
  where_destroyedAtIsNull : bool;
}.

Record Patch := {
  set_expiredAt : Z;
  set_json : option string;
}.

Inductive Statement :=
| SelectFrom (q : Select)                            (* getOne, getMany *)
| FindOneOrFail (sid : string) (with_deleted : bool)
| Update (c : Criteria) (p : Patch)
| Insert (row : ISession)
| SoftDelete (sid : string)
| DeleteFrom (ids : InList).

Definition cond_holds (c : Cond) (r : ISession) : bool :=
  match c with
  | ExpiredAtGt t => (t <? expiredAt r)%Z
  | ExpiredAtLe t => (expiredAt r <=? t)%Z
  | IdEq sid => bool_decide (id r = IdString sid)
  end.

(** A select on an entity with a delete-date column leaves soft-deleted rows
    out unless [withDeleted] was asked; TypeORM adds no such condition to an
    update or a delete. *)
Definition selects (q : Select) (r : ISession) : bool :=
  (sel_withDeleted q || bool_decide (destroyedAt r = None))
  && forallb (λ c, cond_holds c r) (sel_where q).

Definition rows (t : gmap Id Columns) : list ISession := row_of <$> map_to_list t.

Definition run_select (q : Select) (t : gmap Id Columns) : list ISession :=
  let xs := List.filter (selects q) (rows t) in
  match sel_limit q with
  | Some n => take (Z.to_nat n) xs
  | None => xs
  end.

Definition patch (p : Patch) (c : Columns) : Columns :=
  {| col_json := default (col_json c) (set_json p);
     col_expiredAt := set_expiredAt p;
     col_destroyedAt := col_destroyedAt c |}.

Definition matches (cr : Criteria) (c : Columns) : bool :=
  negb (where_destroyedAtIsNull cr) || bool_decide (col_destroyedAt c = None).

Definition soft_delete (now : Z) (c : Columns) : Columns :=
  {| col_json := col_json c; col_expiredAt := col_expiredAt c; col_destroyedAt := Some now |}.

(** ** Literal lists

    Enumerated cleanup writes the ids it found into the text of the delete:
    [x.id.replace(/\\/g, "\\\\").replace(/'/g, "\\'")] between single quotes
    for a string id, [`${x.id}`] for any other. *)

Definition backslash : ascii := ascii_of_nat 92.
Definition quote : ascii := ascii_of_nat 39.
Definition comma : ascii := ascii_of_nat 44.
Definition space : ascii := ascii_of_nat 32.

(** [s.replace(/c/g, by_)] for a one-character pattern. *)
Fixpoint replace_all (c : ascii) (by_ : string) (s : string) : string :=
  match s with
  | EmptyString => EmptyString
  | String a rest =>
      if Ascii.eqb a c then by_ +:+ replace_all c by_ rest
      else String a (replace_all c by_ rest)
  end.

Definition escape (s : string) : string :=
  replace_all quote (String backslash (String quote EmptyString))
    (replace_all backslash (String backslash (String backslash EmptyString)) s).

Definition literal (x : Id) : string :=
  match x with
  | IdString s => String quote (escape s +:+ String quote EmptyString)
  | IdNumber n => string_of_Z n
  end.

(** How a storage engine with backslash escapes reads such a list back: a
    quoted item ends at the first quote that no backslash precedes, and a
    backslash makes the next character stand for itself. *)
Inductive Scan :=
| AtItem
| InQuote (acc : string)
| InEscape (acc : string)
| InNumber (acc : string)
| AfterItem.

Definition snoc (s : string) (c : ascii) : string := s +:+ String c EmptyString.

Definition number (digits : string) : option Z := Z.of_int <$> NilZero.int_of_string digits.

Fixpoint scan (st : Scan) (s : string) (items : list Id) : option (list Id) :=
  match s with
  | EmptyString =>
      match st with
      | AfterItem => Some items
      | InNumber acc => n ← number acc; Some (items ++ [IdNumber n])
      | _ => None
      end
  | String c rest =>
      match st with
      | AtItem =>
          if Ascii.eqb c quote then scan (InQuote EmptyString) rest items
          else if Ascii.eqb c space then scan AtItem rest items
          else scan (InNumber (String c EmptyString)) rest items
      | InQuote acc =>
          if Ascii.eqb c backslash then scan (InEscape acc) rest items
          else if Ascii.eqb c quote then scan AfterItem rest (items ++ [IdString acc])
          else scan (InQuote (snoc acc c)) rest items
      | InEscape acc => scan (InQuote (snoc acc c)) rest items
      | InNumber acc =>
          if Ascii.eqb c comma then n ← number acc; scan AtItem rest (items ++ [IdNumber n])
          else scan (InNumber (snoc acc c)) rest items
      | AfterItem =>
          if Ascii.eqb c comma then scan AtItem rest items
          else if Ascii.eqb c space then scan AfterItem rest items
          else None
      end
  end.

(** The ids a literal list denotes; [NULL] alone denotes none. *)
Definition read_in_list (text : string) : option (list Id) :=
  if String.eqb text "NULL" then Some [] else scan AtItem text [].

(** Unescaping one literal. *)
Definition read_literal (text : string) : option Id :=
  match scan AtItem text [] with
  | Some [x] => Some x
  | _ => None
  end.

(** ** The storage engine *)

(** One statement against the table at time [now]: the rows it returns and
    the table it leaves, or the error it raises. *)
Definition execute (now : Z) (s : Statement) (t : gmap Id Columns)
  : Outcome (list ISession * gmap Id Columns) :=
  match s with
  | SelectFrom q => Returned (run_select q t, t)
  | FindOneOrFail sid with_deleted =>
      match t !! IdString sid with
      | Some c =>
          if with_deleted || bool_decide (col_destroyedAt c = None)
          then Returned ([row_of (IdString sid, c)], t)
          else Threw EntityNotFoundError
      | None => Threw EntityNotFoundError
      end
  | Update cr p =>
      Returned ([], alter (λ c, if matches cr c then patch p c else c) (IdString (where_id cr)) t)
  | Insert r =>
      match t !! id r with
      | Some _ => Threw (QueryFailedError "UNIQUE constraint failed: session.id")
      | None => Returned ([], <[id r := columns_of r]> t)
      end
  | SoftDelete sid => Returned ([], alter (soft_delete now) (IdString sid) t)
  | DeleteFrom (InSubquery q) => Returned ([], foldr delete t (id <$> run_select q t))
  | DeleteFrom (InLiterals text) =>
      match read_in_list text with
      | Some xs => Returned ([], foldr delete t xs)
      | None => Threw (QueryFailedError "syntax error in literal list")
      end
  end.

(** ** The world and the monad of asynchronous methods *)

Record CallbackArgs := {
  cb_err : option Error;
  cb_result : option JsValue;
}.

(** A completion callback supplied by the host: what it throws, if anything,
    when invoked with the given arguments. *)
Definition Callback : Type := CallbackArgs → option Error.

Inductive Event :=
| Issued (s : Statement)                       (* a call sent to the repository *)
| Called (a : CallbackArgs)                    (* the completion callback invoked *)
| OnErrorCalled (e : Error)                    (* this.onError(this, e) *)
| Emitted (name : string) (e : option Error).  (* this.emit(name, e) *)

Record World := {
  table : gmap Id Columns;
  ticks : nat;              (* repository calls awaited so far *)
  events : list Event;
}.

Definition M (A : Type) : Type := World → Outcome A * World.

#[global] Instance M_ret : MRet M := λ A a w, (Returned a, w).

#[global] Instance M_bind : MBind M := λ A B f m w,
  match m w with
  | (Returned a, w') => f a w'
  | (Threw e, w') => (Threw e, w')
  end.

Definition throw {A} (e : Error) : M A := λ w, (Threw e, w).

Definition lift {A} (o : Outcome A) : M A := λ w, (o, w).

(** [try { body } catch (e) { handler e }] *)
Definition try_catch {A} (body : M A) (handler : Error → M A) : M A := λ w,
  match body w with
  | (Returned a, w') => (Returned a, w')
  | (Threw e, w') => handler e w'
  end.

Definition log (e : Event) : M unit := λ w,
  (Returned tt, {| table := table w; ticks := ticks w; events := events w ++ [e] |}).

(** [Promise.all(calls)]: every call has been started, and the result
    resolves when all have resolved and rejects as soon as one rejects. Of
    several rejections the first to settle wins; the model lets the calls
    settle in list order, and the statements about [destroy] hold whichever
    of them wins. *)
Fixpoint Promise_all {A} (calls : list (M A)) : M (list A) := λ w,
  match calls with
  | [] => (Returned [], w)
  | c :: rest =>
      let '(o, w1) := c w in
      let '(os, w2) := Promise_all rest w1 in
      (a ← o; l ← os; mret (a :: l), w2)
  end.

(** The host environment: the JSON built-ins, the clock and the fate of each
    repository call, both indexed by the number of calls awaited before. *)
Class Host := {
  JSON_stringify : JsValue → Outcome string;
  JSON_parse : string → Outcome JsValue;
  Date_now : nat → Z;
  storage_fault : nat → option Error;
}.

(** ** The store *)

(** One day in seconds. *)
Definition oneDay : Z := 86400.

(** The store instance handed to the host's own functions ([this]). *)
Inductive Self := this.

Inductive Ttl :=
| TtlNumber (seconds : Z)
| TtlFunction (f : Self → SessionData → option string → Outcome Z).

(** The repository handle given to [connect]; its rows are the world's table. *)
Inductive Repository := SessionRepository.

(** [Partial<ITypeormStoreOptions>] *)
Record ITypeormStoreOptions := {
  opt_cleanupLimit : option Z;
  opt_limitSubquery : option bool;
  opt_onError : option (Self → Error → Outcome unit);
  opt_ttl : option Ttl;
}.

Record TypeormStore := {
  cleanupLimit : option Z;
  limitSubquery : bool;
  onError : option (Self → Error → Outcome unit);
  ttl : option Ttl;
  repository : option Repository;
}.

Definition new_TypeormStore (options : ITypeormStoreOptions) : TypeormStore :=
  {| cleanupLimit := opt_cleanupLimit options;
     limitSubquery := default true (opt_limitSubquery options);
     onError := opt_onError options;
     ttl := opt_ttl options;
     repository := None |}.

Definition getTTL (st : TypeormStore) (sess : SessionData) (sid : option string) : Outcome Z :=
  match ttl st with
  | Some (TtlNumber n) => Returned n
  | Some (TtlFunction f) => f this sess sid
  | None =>
      cookie ← get_prop sess "cookie";
      maxAge ← get_prop cookie "maxAge";
      match maxAge with
      | JsNumber n => Returned (n / 1000)
      | _ => Returned oneDay
      end
  end.

(** [callback()], [callback(err)] and [callback(undefined, result)] *)
Definition no_arguments : CallbackArgs := {| cb_err := None; cb_result := None |}.
Definition with_error (err : Error) : CallbackArgs := {| cb_err := Some err; cb_result := None |}.
Definition with_result (v : JsValue) : CallbackArgs := {| cb_err := None; cb_result := Some v |}.

Definition call (callback : Callback) (a : CallbackArgs) : M unit :=
  log (Called a);;
  match callback a with
  | Some e => throw e
  | None => mret tt
  end.

(** [callback?.(...)] *)
Definition call_opt (callback : option Callback) (a : CallbackArgs) : M unit :=
  match callback with
  | Some f => call f a
  | None => mret tt
  end.

Definition emit (name : string) (e : option Error) : M unit := log (Emitted name e).

Definition connect (st : TypeormStore) (repo : Repository) : M TypeormStore :=
  emit "connect" None;;
  mret {| cleanupLimit := cleanupLimit st; limitSubquery := limitSubquery st;
          onError := onError st; ttl := ttl st; repository := Some repo |}.

Definition getRepository (st : TypeormStore) : M Repository :=
  match repository st with
  | None => throw NotConnected
  | Some r => mret r
  end.

Definition handleError (st : TypeormStore) (er : Error) : M unit :=
  match onError st with
  | Some handler => log (OnErrorCalled er);; lift (handler this er)
  | None => emit "disconnect" (Some er)
  end.

(** [!ids] for the text of an [IN] list: undefined or the empty string. *)
Definition falsy (ids : option InList) : bool :=
  match ids with
  | None => true
  | Some (InLiterals text) => String.eqb text ""
  | Some (InSubquery _) => false
  end.

(** The value of [session.id] inside a JavaScript object. *)
Definition js_of_id (x : Id) : JsValue :=
  match x with
  | IdString s => JsString s
  | IdNumber n => JsNumber n
  end.

(** [{ id: session.id, ...sessionData }] *)
Definition with_id (x : Id) (sessionData : JsValue) : JsValue :=
  JsObject (foldl (λ props kv, set_property kv.1 kv.2 props) [("id", js_of_id x)]
              (spread sessionData)).

(** The argument of [destroy]: one id or an array of ids. *)
Inductive SidArg :=
| OneSid (sid : string)
| ManySids (sids : list string).

(** The query [$] of [cleanup]: up to [n] ids of rows, soft-deleted ones
    included, that are expired at [now]. *)
Definition expired_rows (n : Z) (now : Z) : Select :=
  limit n (where_ (ExpiredAtLe now) (withDeleted createQueryBuilder_session)).

Section Methods.
Context `{Host}.

(** [Date.now()] *)
Definition now_ : M Z := λ w, (Returned (Date_now (ticks w)), w).

(** Awaiting a repository call: the call is issued, time passes, and the
    call resolves with the engine's reply or rejects. *)
Definition await (s : Statement) : M (list ISession) := λ w,
  let w1 := {| table := table w; ticks := S (ticks w); events := events w ++ [Issued s] |} in
  match storage_fault (ticks w) with
  | Some e => (Threw e, w1)
  | None =>
      match execute (Date_now (ticks w)) s (table w) with
      | Returned (reply, t') =>
          (Returned reply,
           {| table := t'; ticks := S (ticks w); events := events w ++ [Issued s] |})
      | Threw e => (Threw e, w1)
      end
  end.

Definition getOne (q : Select) : M (option ISession) := xs ← await (SelectFrom q); mret (head xs).
Definition getMany (q : Select) : M (list ISession) := await (SelectFrom q).

Definition createQueryBuilder (st : TypeormStore) : M Select :=
  _ ← getRepository st;
  now ← now_;
  mret (where_ (ExpiredAtGt now) createQueryBuilder_session).

Definition cleanup (st : TypeormStore) : M unit :=
  match cleanupLimit st with
  | None | Some 0 => mret tt
  | Some n =>
      _ ← getRepository st;
      now ← now_;
      let q := expired_rows n now in
      ids ← (if limitSubquery st then mret (Some (InSubquery q))
             else
               xs ← getMany q;
               if (0 <? length xs)%nat
               then mret (Some (InLiterals (String.concat ", " ((λ x, literal (id x)) <$> xs))))
               else mret None);
      if falsy ids then mret tt
      else
        match ids with
        | Some ids' => _ ← getRepository st; await (DeleteFrom ids');; mret tt
        | None => mret tt
        end
  end.

(** Attempts to fetch session by the given [sid]. *)
Definition get (st : TypeormStore) (sid : string) (callback : Callback) : M unit :=
  try_catch
    (qb ← createQueryBuilder st;
     session ← getOne (andWhere (IdEq sid) qb);
     match session with
     | None => call callback no_arguments
     | Some session =>
         result ← lift (JSON_parse (json session));
         call callback (with_result result)
     end)
    (λ err, call callback (with_error err);; handleError st err).

(** The inner [try]/[catch] of [set]: look the row up, soft-deleted rows
    included, and update it if it is live; on any error, insert. *)
Definition upsert (sid : string) (json : string) (ttl : Z) : M unit :=
  try_catch
    (await (FindOneOrFail sid true);;
     now ← now_;
     await (Update {| where_id := sid; where_destroyedAtIsNull := true |}
              {| set_expiredAt := now + ttl * 1000; set_json := Some json |});;
     mret tt)
    (λ _,
     now ← now_;
     await (Insert {| id := IdString sid; json := json;
                      expiredAt := now + ttl * 1000; destroyedAt := None |});;
     mret tt).

(** Commits the given [session] object associated with the given [sid]. *)
Definition set (st : TypeormStore) (sid : string) (session : SessionData)
    (callback : option Callback) : M unit :=
  try_catch
    (_ ← getRepository st;
     match JSON_stringify session with
     | Threw er => call_opt callback (with_error er)
     | Returned json =>
         ttl ← lift (getTTL st session (Some sid));
         cleanup st;;
         upsert sid json ttl;;
         call_opt callback no_arguments
     end)
    (λ err, call_opt callback (with_error err);; handleError st err).

(** Destroys the session associated with the given [sid]. *)
Definition destroy (st : TypeormStore) (sid : SidArg) (callback : option Callback) : M unit :=
  try_catch
    (_ ← getRepository st;
     let sids := match sid with ManySids xs => xs | OneSid x => [x] end in
     let softDelete := (λ x, await (SoftDelete x)) <$> sids in
     Promise_all softDelete;;
     call_opt callback no_arguments)
    (λ err, call_opt callback (with_error err);; handleError st err).

(** Refreshes the time-to-live for the session with the given [sid]. *)
Definition touch (st : TypeormStore) (sid : string) (session : SessionData)
    (callback : option Callback) : M unit :=
  try_catch
    (ttl ← lift (getTTL st session None);
     _ ← getRepository st;
     now ← now_;
     await (Update {| where_id := sid; where_destroyedAtIsNull := false |}
              {| set_expiredAt := now + ttl * 1000; set_json := None |});;
     call_opt callback no_arguments)
    (λ err, call_opt callback (with_error err);; handleError st err).

(** The function mapped over the sessions by [all]. *)
Definition annotate (session : ISession) : Outcome JsValue :=
  sessionData ← JSON_parse (json session);
  mret (with_id (id session) sessionData).

(** Fetches all sessions. *)
Definition all (st : TypeormStore) (callback : Callback) : M unit :=
  try_catch
    (qb ← createQueryBuilder st;
     sessions ← getMany qb;
     result ← lift (mapM annotate sessions);
     call callback {| cb_err := None; cb_result := Some (JsArray result) |})
    (λ err,
     call callback {| cb_err := Some err; cb_result := Some (JsArray []) |};;
     handleError st err).

(** *** The public operations, uniformly

    Every public method is one [try] block that ends by invoking the
    completion callback, and one [catch] block that invokes the callback with
    the error and then calls [handleError]. The [_work] functions are the
    [try] blocks up to the invocation of the callback; they return the
    arguments the callback is invoked with. *)

Definition get_work (st : TypeormStore) (sid : string) : M CallbackArgs :=
  qb ← createQueryBuilder st;
  session ← getOne (andWhere (IdEq sid) qb);
  match session with
  | None => mret no_arguments
  | Some session =>
      result ← lift (JSON_parse (json session));
      mret (with_result result)
  end.

Definition set_work (st : TypeormStore) (sid : string) (session : SessionData)
  : M CallbackArgs :=
  _ ← getRepository st;
  match JSON_stringify session with
  | Threw er => mret (with_error er)
  | Returned json =>
      ttl ← lift (getTTL st session (Some sid));
      cleanup st;;
      upsert sid json ttl;;
      mret no_arguments
  end.

Definition destroy_work (st : TypeormStore) (sid : SidArg) : M CallbackArgs :=
  _ ← getRepository st;
  let sids := match sid with ManySids xs => xs | OneSid x => [x] end in
  let softDelete := (λ x, await (SoftDelete x)) <$> sids in
  Promise_all softDelete;;
  mret no_arguments.

Definition touch_work (st : TypeormStore) (sid : string) (session : SessionData)
  : M CallbackArgs :=
  ttl ← lift (getTTL st session None);
  _ ← getRepository st;
  now ← now_;
  await (Update {| where_id := sid; where_destroyedAtIsNull := false |}
           {| set_expiredAt := now + ttl * 1000; set_json := None |});;
  mret no_arguments.

Definition all_work (st : TypeormStore) : M CallbackArgs :=
  qb ← createQueryBuilder st;
  sessions ← getMany qb;
  result ← lift (mapM annotate sessions);
  mret {| cb_err := None; cb_result := Some (JsArray result) |}.

Inductive Operation :=
| OpGet (sid : string) (callback : Callback)
| OpSet (sid : string) (session : SessionData) (callback : option Callback)
| OpDestroy (sid : SidArg) (callback : option Callback)
| OpTouch (sid : string) (session : SessionData) (callback : option Callback)
| OpAll (callback : Callback).

Definition perform (st : TypeormStore) (op : Operation) : M unit :=
  match op with
  | OpGet sid callback => get st sid callback
  | OpSet sid session callback => set st sid session callback
  | OpDestroy sid callback => destroy st sid callback
  | OpTouch sid session callback => touch st sid session callback
  | OpAll callback => all st callback
  end.

Definition work (st : TypeormStore) (op : Operation) : M CallbackArgs :=
  match op with
  | OpGet sid _ => get_work st sid
  | OpSet sid session _ => set_work st sid session
  | OpDestroy sid _ => destroy_work st sid
  | OpTouch sid session _ => touch_work st sid session
  | OpAll _ => all_work st
  end.

Definition callback_of (op : Operation) : option Callback :=
  match op with
  | OpGet _ callback | OpAll callback => Some callback
  | OpSet _ _ callback | OpDestroy _ callback | OpTouch _ _ callback => callback
  end.

(** The arguments of the callback in the [catch] block. *)
Definition error_arguments (op : Operation) (err : Error) : CallbackArgs :=
  match op with
  | OpAll _ => {| cb_err := Some err; cb_result := Some (JsArray []) |}
  | _ => with_error err
  end.

End Methods.

(** The event by which [handleError] forwards an error: the [onError]
    handler if one is configured, otherwise a "disconnect" emission. *)
Definition secondary (st : TypeormStore) (er : Error) : Event :=
  match onError st with
  | Some _ => OnErrorCalled er
  | None => Emitted "disconnect" (Some er)
  end.

(** ** The older copy of the class

    The repository keeps an earlier version of the same file. It reads
    [this.repository] directly (a TypeError before [connect]) and has the
    clean-up inline in [set], with the text [NULL] standing for an empty list
    of ids. Its other methods differ from the current ones only in the direct
    read of [this.repository]. *)
Module Legacy.
Section Methods.
Context `{Host}.

(** [this.repository.m(...)]: reading a method of [undefined] throws. *)
Definition this_repository (st : TypeormStore) (method : string) : M Repository :=
  match repository st with
  | None => throw (TypeError ("Cannot read properties of undefined (reading '"
                                +:+ method +:+ "')"))
  | Some r => mret r
  end.

(** The array [args] that the older [set] fills is never read, and is left
    out. *)
Definition set (st : TypeormStore) (sid : string) (session : SessionData)
    (callback : option Callback) : M unit :=
  try_catch
    (match JSON_stringify session with
     | Threw er => call_opt callback (with_error er)
     | Returned json =>
         ttl ← lift (getTTL st session (Some sid));
         match cleanupLimit st with
         | None | Some 0 => mret tt
         | Some n =>
             _ ← this_repository st "createQueryBuilder";
             now ← now_;
             let q := expired_rows n now in
             ids ← (if limitSubquery st then mret (InSubquery q)
                    else
                      xs ← getMany q;
                      if (0 <? length xs)%nat
                      then mret (InLiterals (String.concat ", " ((λ x, literal (id x)) <$> xs)))
                      else mret (InLiterals "NULL"));
             _ ← this_repository st "createQueryBuilder";
             await (DeleteFrom ids);;
             mret tt
         end;;
         try_catch
           (_ ← this_repository st "findOneOrFail";
            await (FindOneOrFail sid true);;
            _ ← this_repository st "update";
            now ← now_;
            await (Update {| where_id := sid; where_destroyedAtIsNull := true |}
                     {| set_expiredAt := now + ttl * 1000; set_json := Some json |});;
            mret tt)
           (λ _,
            _ ← this_repository st "insert";
            now ← now_;
            await (Insert {| id := IdString sid; json := json;
                             expiredAt := now + ttl * 1000; destroyedAt := None |});;
            mret tt);;
         call_opt callback no_arguments
     end)
    (λ err, call_opt callback (with_error err);; handleError st err).

End Methods.
End Legacy.

(** ** Auxiliary notions used by the statements *)

(** [sess.cookie.maxAge] *)
Definition cookie_maxAge (sess : SessionData) : Outcome JsValue :=
  cookie ← get_prop sess "cookie"; get_prop cookie "maxAge".

Definition is_number (v : JsValue) : Prop := ∃ n, v = JsNumber n.

(** A computation is quiet when all it adds to the events are statements
    issued to the repository: it invokes no callback and forwards no error. *)
Definition quiet {A} (m : M A) : Prop :=
  ∀ w, ∃ stmts, events (m w).2 = events w ++ (Issued <$> stmts).

(** The select behind [get] and [all] at clock reading [now]. *)
Definition live_rows (now : Z) : Select := where_ (ExpiredAtGt now) createQueryBuilder_session.

(** The statements of [set]'s inner [try]/[catch], issued at clock reading
    [now]. *)
Definition conditional_update (sid json : string) (ttl : Z) (now : Z) : Statement :=
  Update {| where_id := sid; where_destroyedAtIsNull := true |}
    {| set_expiredAt := now + ttl * 1000; set_json := Some json |}.

Definition insertion (sid json : string) (ttl : Z) (now : Z) : Statement :=
  Insert {| id := IdString sid; json := json; expiredAt := now + ttl * 1000;
            destroyedAt := None |}.

(** The statement of [touch], issued at clock reading [now]. *)
Definition expiry_update (sid : string) (ttl : Z) (now : Z) : Statement :=
  Update {| where_id := sid; where_destroyedAtIsNull := false |}
    {| set_expiredAt := now + ttl * 1000; set_json := None |}.

(** Unfolds the plumbing of the monad so that a method runs symbolically. *)
Ltac run :=
  unfold try_catch, getOne, getMany, createQueryBuilder, getRepository, handleError,
    call_opt, call, emit, log, now_, lift, throw;
  unfold mbind, M_bind, mret, M_ret;
  cbn [fst snd table ticks events].

(** ** A sample environment, used by the examples

    [stringify] renders [JSON.stringify] on the values of the model (integers,
    strings without control characters): a BigInt cannot be serialized,
    [undefined] is left out of objects and written [null] elsewhere. *)

Definition double_quote : ascii := ascii_of_nat 34.

Definition json_string (s : string) : string :=
  String double_quote
    (replace_all double_quote (String backslash (String double_quote EmptyString))
       (replace_all backslash (String backslash (String backslash EmptyString)) s)
     +:+ String double_quote EmptyString).

Fixpoint stringify (v : JsValue) : Outcome string :=
  let fix elements (xs : list JsValue) : Outcome (list string) :=
    match xs with
    | [] => Returned []
    | x :: rest => s ← stringify x; ss ← elements rest; mret (s :: ss)
    end in
  let fix members (ps : list (string * JsValue)) : Outcome (list string) :=
    match ps with
    | [] => Returned []
    | (_, JsUndefined) :: rest => members rest
    | (k, x) :: rest =>
        s ← stringify x; ss ← members rest; mret ((json_string k +:+ ":" +:+ s) :: ss)
    end in
  match v with
  | JsUndefined | JsNull => Returned "null"
  | JsBoolean b => Returned (if b then "true" else "false")
  | JsNumber n => Returned (string_of_Z n)
  | JsBigInt _ => Threw (TypeError "Do not know how to serialize a BigInt")
  | JsString s => Returned (json_string s)
  | JsArray xs => ss ← elements xs; Returned ("[" +:+ String.concat "," ss +:+ "]")
  | JsObject ps => ss ← members ps; Returned ("{" +:+ String.concat "," ss +:+ "}")
  end.

Definition sample_session : SessionData :=
  JsObject [("cookie", JsObject [("maxAge", JsNumber 60000)]); ("user", JsString "ann")].

(** Session data that [JSON.stringify] rejects: one of its fields is a BigInt. *)
Definition unserializable_session : SessionData :=
  JsObject [("cookie", JsObject []); ("visits", JsBigInt 1)].

Definition sample_json : string :=
  match stringify sample_session with
  | Returned s => s
  | Threw _ => ""
  end.

(** A reader that knows the one payload of the examples. *)
Definition sample_parse (s : string) : Outcome JsValue :=
  if String.eqb s sample_json then Returned sample_session
  else Threw (SyntaxError "Unexpected token in JSON").

(** The clock starts at 1000 and each awaited call takes one millisecond. *)
Definition sample_host (fault : nat → option Error) : Host :=
  {| JSON_stringify := stringify; JSON_parse := sample_parse;
     Date_now := λ k, 1000 + Z.of_nat k; storage_fault := fault |}.

Definition no_fault : nat → option Error := λ _, None.

(** The second awaited call is rejected by the storage engine. *)
Definition second_call_fails : nat → option Error :=
  λ k, if (k =? 1)%nat then Some (QueryFailedError "connection lost") else None.

Definition default_options : ITypeormStoreOptions :=
  {| opt_cleanupLimit := None; opt_limitSubquery := None; opt_onError := None;
     opt_ttl := None |}.

Definition connected_store : TypeormStore :=
  {| cleanupLimit := None; limitSubquery := true; onError := None; ttl := None;
     repository := Some SessionRepository |}.

(** A connected store with enumerated clean-up of up to ten rows per [set]. *)
Definition enumerating_store : TypeormStore :=
  {| cleanupLimit := Some 10; limitSubquery := false; onError := None; ttl := None;
     repository := Some SessionRepository |}.

Definition empty_world : World := {| table := ∅; ticks := 0; events := [] |}.

(** A world whose table holds one live, unexpired row for session [A]. *)
Definition world_with_A : World :=
  {| table := {[ IdString "A" := {| col_json := sample_json; col_expiredAt := 31000;
                                    col_destroyedAt := None |} ]};
     ticks := 0; events := [] |}.

Definition accepting : Callback := λ _, None.
Definition throwing : Callback := λ _, Some (UserError "callback failed").
Definition throwing_on_success : Callback :=
  λ a, match cb_err a with None => Some (UserError "callback failed") | Some _ => None end.


(** A store, not yet connected, with a fixed time to live of one minute. *)
Definition one_minute_store : TypeormStore :=
  {| cleanupLimit := None; limitSubquery := true; onError := None;
     ttl := Some (TtlNumber 60); repository := None |}.


(** An environment whose clock stands at [t], with a repository that answers. *)
Definition host_at (t : Z) : Host :=
  {| JSON_stringify := stringify; JSON_parse := sample_parse;
     Date_now := λ _, t; storage_fault := no_fault |}.

Definition connected_one_minute_store : TypeormStore :=
  {| cleanupLimit := None; limitSubquery := true; onError := None;
     ttl := Some (TtlNumber 60); repository := Some SessionRepository |}.


(** ** Further notions used by the statements *)

(** [Array.isArray(sid) ? sid : [sid]] *)
Definition sids_of (sid : SidArg) : list string :=
  match sid with ManySids xs => xs | OneSid x => [x] end.

(** The error that stops an operation on a store that is not connected:
    [touch] computes the time to live before it asks for the repository. *)
Definition failure_before_connect (st : TypeormStore) (op : Operation) : Error :=
  match op with
  | OpTouch _ session _ =>
      match getTTL st session None with
      | Threw e => e
      | Returned _ => NotConnected
      end
  | _ => NotConnected
  end.

(** The table once the rows picked by the query [$] of [cleanup] are gone. *)
Definition purge (n now : Z) (t : gmap Id Columns) : gmap Id Columns :=
  foldr delete t (id <$> run_select (expired_rows n now) t).

(** How many rows of the table are expired at [now], soft-deleted or not. *)
Definition expired_count (now : Z) (t : gmap Id Columns) : nat :=
  length (List.filter (selects (where_ (ExpiredAtLe now) (withDeleted createQueryBuilder_session)))
            (rows t)).

(** The columns that [set] writes for a session. *)
Definition stored (json : string) (ttl : Z) (now : Z) : Columns :=
  {| col_json := json; col_expiredAt := now + ttl * 1000; col_destroyedAt := None |}.

(** The second table has the rows of the first, with the same payload and
    expiry; a row soft-deleted in the first is soft-deleted in the second. *)
Definition keeps_payloads (t t' : gmap Id Columns) : Prop :=
  ∀ k, match t !! k, t' !! k with
       | Some c, Some c' =>
           col_json c' = col_json c ∧ col_expiredAt c' = col_expiredAt c ∧
           (is_Some (col_destroyedAt c) → is_Some (col_destroyedAt c'))
       | None, None => True
       | _, _ => False
       end.

(** The statements that only [cleanup] sends. *)
Definition is_cleanup_statement (s : Statement) : bool :=
  match s with
  | SelectFrom q => sel_withDeleted q
  | DeleteFrom _ => true
  | _ => false
  end.

(** The statements that can take a row out of the table. *)
Definition is_delete (s : Statement) : bool :=
  match s with DeleteFrom _ => true | _ => false end.


(** What [{ id: x, ...v }.k] reads: the property of [v] of that name when
    [v] has one (the later one, were a name listed twice), and otherwise the
    id for the name [id] and [undefined] for any other name. *)
Definition entry_property (x : Id) (v : JsValue) (k : string) : JsValue :=
  if decide (k ∈ (spread v).*1) then own_property k (reverse (spread v))
  else if String.eqb k "id" then js_of_id x else JsUndefined.



(** A computation respects a relation between worlds when every run of it
    takes a world to a related one. *)
Definition respects (R : World → World → Prop) {A} (m : M A) : Prop :=
  ∀ w, R w (m w).2.

(** No row has left the table. *)
Definition rows_kept (w w' : World) : Prop :=
  ∀ k, is_Some (table w !! k) → is_Some (table w' !! k).

(** Every statement issued in between satisfies [P]. *)
Definition issued_only (P : Statement → bool) (w w' : World) : Prop :=
  ∀ s, Issued s ∈ events w' → Issued s ∈ events w ∨ P s = true.

(** [if (!this.cleanupLimit) return] does not return. *)
Definition cleanup_enabled (st : TypeormStore) : bool :=
  match cleanupLimit st with
  | None | Some 0 => false
  | Some _ => true
  end.

(** The statements of each operation: a read selects among the rows that
    are not soft-deleted; [set] looks up, updates or inserts the row of its
    id, and selects or deletes for clean-up; [destroy] soft-deletes its ids;
    [touch] updates the expiry of its id. *)
Definition own_statement (st : TypeormStore) (op : Operation) (s : Statement) : bool :=
  match op, s with
  | (OpGet _ _ | OpAll _), SelectFrom q => negb (sel_withDeleted q)
  | OpSet sid _ _, FindOneOrFail sid' with_deleted => String.eqb sid' sid && with_deleted
  | OpSet sid _ _, Update cr p => String.eqb (where_id cr) sid && where_destroyedAtIsNull cr
  | OpSet sid _ _, Insert row => bool_decide (id row = IdString sid)
  | OpSet _ _ _, (SelectFrom _ | DeleteFrom _) => cleanup_enabled st
  | OpDestroy sid _, SoftDelete x => bool_decide (x ∈ sids_of sid)
  | OpTouch sid _ _, Update cr p =>
      String.eqb (where_id cr) sid && negb (where_destroyedAtIsNull cr)
      && bool_decide (set_json p = None)
  | _, _ => false
  end.

(** The operations that can take rows out of the table: [set], when
    clean-up is enabled. *)
Definition may_purge (st : TypeormStore) (op : Operation) : bool :=
  match op with
  | OpSet _ _ _ => cleanup_enabled st
  | _ => false
  end.

(** ** Further sample worlds and stores *)

(** A world whose one row, for session [A], expired before the clock of the
    sample environment started. *)
Definition world_with_expired_A : World :=
  {| table := {[ IdString "A" := {| col_json := sample_json; col_expiredAt := 500;
                                    col_destroyedAt := None |} ]};
     ticks := 0; events := [] |}.

(** A world with two expired rows, one of them soft-deleted, a soft-deleted
    row that has not expired, and a live row. *)
Definition world_with_stale_rows : World :=
  {| table :=
       <[ IdString "old" := {| col_json := sample_json; col_expiredAt := 100;
                               col_destroyedAt := None |} ]>
       (<[ IdString "it's" := {| col_json := sample_json; col_expiredAt := 200;
                                 col_destroyedAt := Some 150 |} ]>
       (<[ IdString "gone" := {| col_json := sample_json; col_expiredAt := 90000;
                                 col_destroyedAt := Some 950 |} ]>
       {[ IdString "A" := {| col_json := sample_json; col_expiredAt := 31000;
                             col_destroyedAt := None |} ]}));
     ticks := 0; events := [] |}.


(** A world whose one row holds a payload that is not JSON. *)
Definition world_with_malformed_A : World :=
  {| table := {[ IdString "A" := {| col_json := "{oops"; col_expiredAt := 31000;
                                    col_destroyedAt := None |} ]};
     ticks := 0; events := [] |}.

(** A connected store that cleans up with a nested select, up to ten rows. *)
Definition subquery_store : TypeormStore :=
  {| cleanupLimit := Some 10; limitSubquery := true; onError := None; ttl := None;
     repository := Some SessionRepository |}.

(** An environment in which every stored payload parses to [v]. *)
Definition host_parsing (v : JsValue) : Host :=
  {| JSON_stringify := stringify; JSON_parse := λ _, Returned v;
     Date_now := λ k, 1000 + Z.of_nat k; storage_fault := no_fault |}.

(** Session data with an [id] property of its own. *)
Definition session_with_id : SessionData :=
  JsObject [("cookie", JsObject []); ("id", JsString "forged")].

(** The first awaited call is rejected by the storage engine. *)
Definition first_call_fails : nat → option Error :=
  λ k, if (k =? 0)%nat then Some (QueryFailedError "connection lost") else None.

(** * Properties *)

Example sample_json_text :
  sample_json =
    String "{" (json_string "cookie" +:+ ":{" +:+ json_string "maxAge" +:+ ":60000},"
                +:+ json_string "user" +:+ ":" +:+ json_string "ann" +:+ "}").
Proof. reflexivity. Qed.

(** ** Running the methods *)

Section Facade.
Context `{Host}.

Lemma bind_run {A B} (m : M A) (k : A → M B) (w : World) :
  (m ≫= k) w =
    match m w with
    | (Returned a, w') => k a w'
    | (Threw e, w') => (Threw e, w')
    end.
Proof. reflexivity. Qed.

Lemma try_catch_run {A} (body : M A) (handler : Error → M A) (w : World) :
  try_catch body handler w =
    match body w with
    | (Returned a, w') => (Returned a, w')
    | (Threw e, w') => handler e w'
    end.
Proof. reflexivity. Qed.

Lemma bind_ret_events {A B} (m : M A) (b : B) (w : World) :
  events ((m;; mret b) w).2 = events (m w).2.
Proof. rewrite bind_run. by destruct (m w) as [[a|e] w1]. Qed.

Lemma quiet_ret {A} (a : A) : quiet (mret a).
Proof. intros w. exists []. simpl. by rewrite app_nil_r. Qed.

Lemma quiet_throw {A} (e : Error) : quiet (throw (A := A) e).
Proof. intros w. exists []. simpl. by rewrite app_nil_r. Qed.

Lemma quiet_lift {A} (o : Outcome A) : quiet (lift o).
Proof. intros w. exists []. simpl. by rewrite app_nil_r. Qed.

Lemma quiet_now : quiet now_.
Proof. intros w. exists []. simpl. by rewrite app_nil_r. Qed.

Lemma quiet_getRepository (st : TypeormStore) : quiet (getRepository st).
Proof. unfold getRepository. destruct (repository st); [apply quiet_ret | apply quiet_throw]. Qed.

Lemma quiet_bind {A B} (m : M A) (k : A → M B) :
  quiet m → (∀ a, quiet (k a)) → quiet (m ≫= k).
Proof.
  intros Hm Hk w. rewrite bind_run. destruct (Hm w) as [s1 H1].
  destruct (m w) as [[a|e] w1]; simpl in H1.
  - destruct (Hk a w1) as [s2 H2]. exists (s1 ++ s2).
    by rewrite H2, H1, fmap_app, app_assoc.
  - by exists s1.
Qed.

Lemma quiet_try_catch {A} (body : M A) (handler : Error → M A) :
  quiet body → (∀ e, quiet (handler e)) → quiet (try_catch body handler).
Proof.
  intros Hm Hk w. rewrite try_catch_run. destruct (Hm w) as [s1 H1].
  destruct (body w) as [[a|e] w1]; simpl in H1.
  - by exists s1.
  - destruct (Hk e w1) as [s2 H2]. exists (s1 ++ s2).
    by rewrite H2, H1, fmap_app, app_assoc.
Qed.

Lemma quiet_await (s : Statement) : quiet (await s).
Proof.
  intros w. exists [s]. unfold await.
  destruct (storage_fault (ticks w)); [done|].
  by destruct (execute _ s (table w)) as [[reply t']|e].
Qed.

Lemma quiet_Promise_all {A} (calls : list (M A)) :
  Forall quiet calls → quiet (Promise_all calls).
Proof.
  induction 1 as [|c rest Hc _ IH]; intros w.
  - exists []. simpl. by rewrite app_nil_r.
  - simpl. destruct (Hc w) as [s1 H1]. destruct (c w) as [o w1]. simpl in H1.
    destruct (IH w1) as [s2 H2]. destruct (Promise_all rest w1) as [os w2]. simpl in *.
    exists (s1 ++ s2). by rewrite H2, H1, fmap_app, app_assoc.
Qed.

Create HintDb quiet.

#[local] Hint Resolve quiet_ret quiet_throw quiet_lift quiet_now quiet_getRepository
  quiet_await : quiet.

(** Walks through a computation, one bind or handler at a time. *)
Ltac quiet_steps :=
  repeat (first [apply quiet_bind | apply quiet_try_catch]; [|intros ?]);
  auto with quiet.

Lemma quiet_createQueryBuilder (st : TypeormStore) : quiet (createQueryBuilder st).
Proof. unfold createQueryBuilder. quiet_steps. Qed.

Lemma quiet_cleanup (st : TypeormStore) : quiet (cleanup st).
Proof.
  unfold cleanup, getMany.
  destruct (cleanupLimit st) as [[|p|p]|]; auto with quiet; quiet_steps.
  all: try (destruct (limitSubquery st); quiet_steps;
            match goal with |- context [(0 <? length ?xs)%nat] =>
              destruct (0 <? length xs)%nat end; auto with quiet).
  all: match goal with ids : option InList |- _ =>
         destruct (falsy ids); auto with quiet; destruct ids; quiet_steps end.
Qed.

Lemma quiet_upsert (sid json : string) (ttl_ : Z) : quiet (upsert sid json ttl_).
Proof. unfold upsert. quiet_steps. Qed.

#[local] Hint Resolve quiet_createQueryBuilder quiet_cleanup quiet_upsert : quiet.

(** The work of an operation only talks to the repository. *)
Lemma quiet_work (st : TypeormStore) (op : Operation) : quiet (work st op).
Proof.
  destruct op as [sid cb|sid session cb|sid cb|sid session cb|cb]; cbn [work].
  - unfold get_work, getOne. quiet_steps.
    match goal with session : option ISession |- _ => destruct session end; quiet_steps.
  - unfold set_work. quiet_steps.
    destruct (JSON_stringify session) as [json|er]; quiet_steps.
  - unfold destroy_work. quiet_steps.
    apply quiet_Promise_all, Forall_fmap, Forall_forall. intros x _. apply quiet_await.
  - unfold touch_work. quiet_steps.
  - unfold all_work, getMany. quiet_steps.
Qed.

Lemma secondary_not_issued (st : TypeormStore) (e : Error) (s : Statement) :
  Issued s ≠ secondary st e.
Proof. unfold secondary. by destruct (onError st). Qed.

Lemma call_run (cb : Callback) (a : CallbackArgs) (w : World) :
  call cb a w =
    (match cb a with Some e => Threw e | None => Returned tt end,
     {| table := table w; ticks := ticks w; events := events w ++ [Called a] |}).
Proof. unfold call. run. by destruct (cb a). Qed.

(** The [catch] block: the callback with the error, then [handleError]. *)
Lemma catch_block (st : TypeormStore) (callback : option Callback)
    (a : CallbackArgs) (e : Error) (w : World) :
  let after := (call_opt callback a;; handleError st e) w in
  table after.2 = table w ∧ ticks after.2 = ticks w ∧
  match callback with
  | None => events after.2 = events w ++ [secondary st e]
  | Some cb =>
      match cb a with
      | None => events after.2 = events w ++ [Called a; secondary st e]
      | Some e' => after = (Threw e', {| table := table w; ticks := ticks w;
                                         events := events w ++ [Called a] |})
      end
  end.
Proof.
  unfold secondary, handleError. destruct callback as [cb|]; run.
  - destruct (cb a) as [e'|]; [done|].
    destruct (onError st) as [h|]; run; cbn; by rewrite <- app_assoc.
  - destruct (onError st) as [h|]; run; by cbn.
Qed.

Lemma catch_block_frame (st : TypeormStore) (callback : option Callback)
    (a : CallbackArgs) (e : Error) (w : World) :
  let after := (call_opt callback a;; handleError st e) w in
  table after.2 = table w ∧ ticks after.2 = ticks w ∧
  ∃ rest, events after.2 = events w ++ rest ∧ ∀ s, Issued s ∉ rest.
Proof.
  destruct (catch_block st callback a e w) as (Ht & Hk & Hev).
  split; [exact Ht | split; [exact Hk|]].
  destruct callback as [cb|]; [destruct (cb a) as [e'|]|].
  - cbv zeta in Hev. rewrite Hev. exists [Called a]. split; [done|].
    intros s [=]%list_elem_of_singleton.
  - eexists. split; [exact Hev|].
    intros s [[=]|[Hs|[]%elem_of_nil]%elem_of_cons]%elem_of_cons.
    by apply secondary_not_issued in Hs.
  - eexists. split; [exact Hev|].
    intros s Hs%list_elem_of_singleton. by apply secondary_not_issued in Hs.
Qed.

(** Every public operation is its work, then the callback, under the one
    handler. *)
Lemma perform_facade (st : TypeormStore) (op : Operation) (w : World) :
  perform st op w =
    try_catch (a ← work st op; call_opt (callback_of op) a)
      (λ err, call_opt (callback_of op) (error_arguments op err);; handleError st err) w.
Proof.
  destruct op as [sid cb|sid session cb|sid cb|sid session cb|cb];
    cbn [perform work callback_of error_arguments].
  - unfold get, get_work. rewrite !try_catch_run. f_equal.
    rewrite !bind_run. destruct (createQueryBuilder st w) as [[qb|e] w1]; [|done].
    rewrite !bind_run. destruct (getOne _ w1) as [[[session|]|e] w2]; try done.
    rewrite !bind_run. by destruct (lift _ w2) as [[result|e] w3].
  - unfold set, set_work. rewrite !try_catch_run. f_equal.
    rewrite !bind_run. destruct (getRepository st w) as [[r|e] w1]; [|done].
    destruct (JSON_stringify session) as [json|er]; [|done].
    rewrite !bind_run. destruct (lift _ w1) as [[ttl_|e] w2]; [|done].
    rewrite !bind_run. destruct (cleanup st w2) as [[[]|e] w3]; [|done].
    rewrite !bind_run. by destruct (upsert sid json ttl_ w3) as [[[]|e] w4].
  - unfold destroy, destroy_work. rewrite !try_catch_run. f_equal.
    rewrite !bind_run. destruct (getRepository st w) as [[r|e] w1]; [|done].
    rewrite !bind_run. by destruct (Promise_all _ w1) as [[xs|e] w2].
  - unfold touch, touch_work. rewrite !try_catch_run. f_equal.
    rewrite !bind_run. destruct (lift _ w) as [[ttl_|e] w1]; [|done].
    rewrite !bind_run. destruct (getRepository st w1) as [[r|e] w2]; [|done].
    rewrite !bind_run. destruct (now_ w2) as [[now|e] w3]; [|done].
    rewrite !bind_run. by destruct (await _ w3) as [[xs|e] w4].
  - unfold all, all_work. rewrite !try_catch_run. f_equal.
    rewrite !bind_run. destruct (createQueryBuilder st w) as [[qb|e] w1]; [|done].
    rewrite !bind_run. destruct (getMany qb w1) as [[sessions|e] w2]; [|done].
    rewrite !bind_run. by destruct (lift _ w2) as [[result|e] w3].
Qed.

(** What follows the work of an operation neither touches the table nor
    talks to the repository. *)
Lemma perform_after_work (st : TypeormStore) (op : Operation) (w : World) :
  table (perform st op w).2 = table (work st op w).2 ∧
  ticks (perform st op w).2 = ticks (work st op w).2 ∧
  ∃ rest, events (perform st op w).2 = events (work st op w).2 ++ rest
          ∧ ∀ s, Issued s ∉ rest.
Proof.
  rewrite perform_facade, try_catch_run, bind_run.
  destruct (work st op w) as [[a|e] w1]; cbn [snd].
  - destruct (callback_of op) as [cb|]; cbn [call_opt].
    + rewrite call_run. destruct (cb a) as [e'|].
      * destruct (catch_block_frame st (Some cb) (error_arguments op e') e'
                    {| table := table w1; ticks := ticks w1;
                       events := events w1 ++ [Called a] |})
          as (Ht & Hk & rest & Hev & Hrest).
        cbn [call_opt table ticks events] in Ht, Hk, Hev.
        split; [exact Ht | split; [exact Hk|]].
        exists (Called a :: rest). split; [by rewrite Hev, <- app_assoc|].
        intros s [[=]|Hs]%elem_of_cons. by apply Hrest in Hs.
      * cbn. split; [done | split; [done|]]. exists [Called a]. split; [done|].
        intros s [=]%list_elem_of_singleton.
    + cbn. split; [done | split; [done|]]. exists []. split; [by rewrite app_nil_r|].
      intros s []%elem_of_nil.
  - apply catch_block_frame.
Qed.

(** When the work succeeds the callback is invoked with its result, and if
    the callback returns the operation is over. *)
Lemma perform_success (st : TypeormStore) (op : Operation) (cb : Callback)
    (a : CallbackArgs) (w w1 : World) :
  work st op w = (Returned a, w1) →
  callback_of op = Some cb →
  (∃ rest, events (perform st op w).2 = events w1 ++ Called a :: rest) ∧
  (cb a = None →
     perform st op w = (Returned tt, {| table := table w1; ticks := ticks w1;
                                        events := events w1 ++ [Called a] |})).
Proof.
  intros Hwork Hcb. rewrite perform_facade, try_catch_run, bind_run, Hwork, Hcb.
  cbn [call_opt]. rewrite call_run. destruct (cb a) as [e|].
  - split; [|done].
    destruct (catch_block_frame st (Some cb) (error_arguments op e) e
                {| table := table w1; ticks := ticks w1;
                   events := events w1 ++ [Called a] |}) as (_ & _ & rest & Hev & _).
    cbn [call_opt events] in Hev. exists rest. by rewrite Hev, <- app_assoc.
  - split; [by exists [] | done].
Qed.

Lemma await_run (s : Statement) (w : World) :
  ticks (await s w).2 = S (ticks w) ∧
  events (await s w).2 = events w ++ [Issued s] ∧
  (∀ e, storage_fault (ticks w) = Some e →
     await s w = (Threw e, {| table := table w; ticks := S (ticks w);
                              events := events w ++ [Issued s] |})) ∧
  (storage_fault (ticks w) = None →
     await s w =
       match execute (Date_now (ticks w)) s (table w) with
       | Returned (reply, t') =>
           (Returned reply, {| table := t'; ticks := S (ticks w);
                               events := events w ++ [Issued s] |})
       | Threw e => (Threw e, {| table := table w; ticks := S (ticks w);
                                 events := events w ++ [Issued s] |})
       end).
Proof.
  unfold await. destruct (storage_fault (ticks w)) as [e|].
  - repeat split; try done. by intros e' [= <-].
  - destruct (execute _ s (table w)) as [[reply t']|e]; repeat split; done.
Qed.

End Facade.

(** ** Time to live *)

Lemma getTTL_default st sess sid :
  ttl st = None →
  getTTL st sess sid =
    (maxAge ← cookie_maxAge sess;
     match maxAge with JsNumber n => Returned (n / 1000) | _ => Returned oneDay end).
Proof.
  intros Hcfg. unfold getTTL, cookie_maxAge. rewrite Hcfg.
  by destruct (get_prop sess "cookie").
Qed.

(** C3, amended. The time to live is resolved in this order, first match
    wins: a configured number is returned unchanged, whatever the session's
    cookie says; a configured function is invoked on the store, the session
    data and the session id, and its result is returned; otherwise
    [sess.cookie.maxAge] is read: a numeric value gives
    [floor(maxAge / 1000)], any other value gives exactly 86400 seconds, and
    when the read itself throws no time to live is computed and the error of
    the read is the outcome. The read throws exactly when the session data,
    or its [cookie], is [undefined] or [null]. *)
Theorem getTTL_resolution_order (st : TypeormStore) (sess : SessionData) (sid : option string) :
  (∀ n, ttl st = Some (TtlNumber n) → getTTL st sess sid = Returned n) ∧
  (∀ f, ttl st = Some (TtlFunction f) → getTTL st sess sid = f this sess sid) ∧
  (∀ n, ttl st = None → cookie_maxAge sess = Returned (JsNumber n) →
        ∃ q, getTTL st sess sid = Returned q ∧ 1000 * q ≤ n < 1000 * (q + 1)) ∧
  (∀ v, ttl st = None → cookie_maxAge sess = Returned v → ¬ is_number v →
        getTTL st sess sid = Returned 86400) ∧
  (∀ e, ttl st = None → cookie_maxAge sess = Threw e → getTTL st sess sid = Threw e) ∧
  (returned (cookie_maxAge sess) = false ↔
     (sess = JsUndefined ∨ sess = JsNull) ∨
     ∃ cookie, get_prop sess "cookie" = Returned cookie ∧
               (cookie = JsUndefined ∨ cookie = JsNull)).
Proof.
  split; [|split; [|split; [|split; [|split]]]].
  - intros n Hcfg. unfold getTTL. by rewrite Hcfg.
  - intros f Hcfg. unfold getTTL. by rewrite Hcfg.
  - intros n Hcfg Hage. exists (n / 1000). split.
    + by rewrite getTTL_default, Hage.
    + pose proof (Z.mul_div_le n 1000). pose proof (Z.mul_succ_div_gt n 1000). lia.
  - intros v Hcfg Hage Hnum. rewrite getTTL_default, Hage by done. simpl.
    destruct v; try reflexivity. destruct Hnum. by eexists.
  - intros e Hcfg Hage. by rewrite getTTL_default, Hage.
  - unfold cookie_maxAge. split.
    + destruct (get_prop sess "cookie") as [cookie|e] eqn:Hcookie.
      * intros Hthrows. right. exists cookie. split; [done|].
        destruct cookie; try discriminate Hthrows; auto.
      * intros _. left. destruct sess; try discriminate Hcookie; auto.
    + intros [[->| ->]|(cookie & -> & [->| ->])]; reflexivity.
Qed.

Lemma getTTL_resolution_order_witness :
  getTTL one_minute_store sample_session (Some "A") = Returned 60 ∧
  (∃ q, getTTL (new_TypeormStore default_options) sample_session (Some "A") = Returned q
        ∧ 1000 * q ≤ 60000 < 1000 * (q + 1)) ∧
  getTTL (new_TypeormStore default_options) (JsObject [("cookie", JsObject [])]) None
  = Returned 86400.
Proof.
  split; [|split].
  - exact (proj1 (getTTL_resolution_order one_minute_store sample_session (Some "A"))
             60 eq_refl).
  - destruct (getTTL_resolution_order (new_TypeormStore default_options) sample_session
                (Some "A")) as (_ & _ & Hnumeric & _).
    exact (Hnumeric 60000 eq_refl eq_refl).
  - destruct (getTTL_resolution_order (new_TypeormStore default_options)
                (JsObject [("cookie", JsObject [])]) None) as (_ & _ & _ & Hdefault & _).
    apply (Hdefault JsUndefined eq_refl eq_refl). intros [n Hn]. discriminate Hn.
Defined.

(** Without a cookie object, [sess.cookie.maxAge] reads a property of
    [undefined]. *)
Lemma getTTL_no_cookie st sess sid :
  ttl st = None →
  get_prop sess "cookie" = Returned JsUndefined →
  getTTL st sess sid
  = Threw (TypeError "Cannot read properties of undefined (reading 'maxAge')").
Proof. intros Hcfg Hcookie. unfold getTTL. by rewrite Hcfg, Hcookie. Qed.

(** C3, as stated, fails in its last clause: with no configured ttl and
    session data that carries no cookie object, [sess.cookie.maxAge] is not
    numeric, yet the outcome is a TypeError and not 86400 seconds. *)
Lemma getTTL_default_needs_cookie :
  ttl (new_TypeormStore default_options) = None ∧
  cookie_maxAge (JsObject [("user", JsString "ann")])
  = Threw (TypeError "Cannot read properties of undefined (reading 'maxAge')") ∧
  getTTL (new_TypeormStore default_options) (JsObject [("user", JsString "ann")]) (Some "A")
  = Threw (TypeError "Cannot read properties of undefined (reading 'maxAge')") ∧
  getTTL (new_TypeormStore default_options) (JsObject [("user", JsString "ann")]) (Some "A")
  ≠ Returned 86400.
Proof. split; [reflexivity | split; [reflexivity | split; [reflexivity | discriminate]]]. Qed.

(** C7, as stated, fails: session data with no cookie object at all makes the
    computation throw instead of returning the one-day default. *)
Lemma getTTL_absent_cookie_throws :
  get_prop (JsObject []) "cookie" = Returned JsUndefined ∧
  getTTL (new_TypeormStore default_options) (JsObject []) None
  = Threw (TypeError "Cannot read properties of undefined (reading 'maxAge')") ∧
  getTTL (new_TypeormStore default_options) (JsObject []) None ≠ Returned 86400.
Proof. split; [reflexivity | split; [reflexivity | discriminate]]. Qed.

(** C7, amended. Under the default configuration (no configured ttl), for
    every session data whose cookie object is present but carries no
    [maxAge], the computation completes without failing and returns the
    one-day default of 86400 seconds. *)
Theorem getTTL_cookie_without_maxAge
    (st : TypeormStore) (sess : SessionData) (sid : option string)
    (props : list (string * JsValue)) :
  ttl st = None →
  get_prop sess "cookie" = Returned (JsObject props) →
  own_property "maxAge" props = JsUndefined →
  getTTL st sess sid = Returned 86400.
Proof.
  intros Hcfg Hcookie Hage. unfold getTTL. rewrite Hcfg, Hcookie. simpl.
  by rewrite Hage.
Qed.

Lemma getTTL_cookie_without_maxAge_witness :
  getTTL (new_TypeormStore default_options) (JsObject [("cookie", JsObject [])]) (Some "A")
  = Returned 86400.
Proof.
  apply (getTTL_cookie_without_maxAge (new_TypeormStore default_options)
           (JsObject [("cookie", JsObject [])]) (Some "A") []); reflexivity.
Defined.

(** ** Escaping of ids in enumerated clean-up *)

Lemma append_nil_l (s : string) : EmptyString +:+ s = s.
Proof. reflexivity. Qed.

Lemma append_cons (a : ascii) (s t : string) : String a s +:+ t = String a (s +:+ t).
Proof. reflexivity. Qed.

Lemma append_assoc (a b c : string) : (a +:+ b) +:+ c = a +:+ (b +:+ c).
Proof.
  induction a as [|x a IH]; [done|].
  rewrite !append_cons. by f_equal.
Qed.

Lemma snoc_append (acc : string) (c : ascii) (s : string) :
  snoc acc c +:+ s = acc +:+ String c s.
Proof. unfold snoc. by rewrite append_assoc. Qed.

Lemma append_empty_r (a : string) : a +:+ EmptyString = a.
Proof.
  induction a as [|x a IH]; [done|].
  rewrite append_cons. by f_equal.
Qed.

(** The two replacements together act on each character on its own. *)
Lemma escape_cons (a : ascii) (s : string) :
  escape (String a s) =
    if Ascii.eqb a backslash then String backslash (String backslash (escape s))
    else if Ascii.eqb a quote then String backslash (String quote (escape s))
    else String a (escape s).
Proof.
  unfold escape. simpl.
  destruct (Ascii.eqb a backslash) eqn:Hb.
  - rewrite !append_cons, append_nil_l. reflexivity.
  - simpl. destruct (Ascii.eqb a quote); [|done].
    by rewrite !append_cons, append_nil_l.
Qed.

(** Reading an escaped string from inside the quotes gives the string back. *)
Lemma scan_escape (s : string) : ∀ acc rest items,
  scan (InQuote acc) (escape s +:+ String quote rest) items
  = scan AfterItem rest (items ++ [IdString (acc +:+ s)]).
Proof.
  induction s as [|a s IH]; intros acc rest items.
  - simpl. by rewrite append_empty_r.
  - rewrite escape_cons.
    destruct (Ascii.eqb a backslash) eqn:Hb.
    + apply Ascii.eqb_eq in Hb. subst a. rewrite !append_cons. simpl.
      by rewrite IH, snoc_append.
    + destruct (Ascii.eqb a quote) eqn:Hq.
      * apply Ascii.eqb_eq in Hq. subst a. rewrite !append_cons. simpl.
        by rewrite IH, snoc_append.
      * rewrite append_cons. simpl. rewrite Hb, Hq. by rewrite IH, snoc_append.
Qed.

Lemma read_literal_string (s : string) : read_literal (literal (IdString s)) = Some (IdString s).
Proof.
  unfold read_literal, literal. simpl. rewrite scan_escape. reflexivity.
Qed.

Lemma int_of_string_of_Z (n : Z) :
  NilZero.int_of_string (string_of_Z n) = Some (Z.to_int n).
Proof.
  unfold string_of_Z. apply NilZero.isi.
  - destruct n; simpl; try discriminate.
    intros [= Hp]. by apply DecimalPos.Unsigned.to_uint_nonnil in Hp.
  - destruct n; simpl; try discriminate.
    intros [= Hp]. by apply DecimalPos.Unsigned.to_uint_nonnil in Hp.
Qed.



Example literal_with_quote :
  literal (IdString "it's") = String quote ("it" +:+ String backslash "'s'").
Proof. reflexivity. Qed.

Example literal_with_backslash :
  literal (IdString (String backslash "n"))
  = String quote (String backslash (String backslash "n'")).
Proof. reflexivity. Qed.

Example literal_of_number : literal (IdNumber 42) = "42" ∧ literal (IdNumber (-7)) = "-7".
Proof. split; reflexivity. Qed.

(** No decimal rendering starts with a quote. *)
Lemma int_of_string_quote (rest : string) :
  NilZero.int_of_string (String quote rest) = None.
Proof.
  unfold NilZero.int_of_string, NilZero.uint_of_string. cbn.
  destruct (NilEmpty.uint_of_string rest); reflexivity.
Qed.

Lemma string_of_Z_unquoted (n : Z) (rest : string) : string_of_Z n ≠ String quote rest.
Proof.
  intros Heq. pose proof (int_of_string_of_Z n) as Hn.
  rewrite Heq, int_of_string_quote in Hn. discriminate Hn.
Qed.

Lemma literal_inj (a b : Id) : literal a = literal b → a = b.
Proof.
  destruct a as [s|n], b as [s'|n']; intros Heq.
  - pose proof (read_literal_string s) as Hs. rewrite Heq, read_literal_string in Hs.
    by injection Hs as ->.
  - simpl in Heq. symmetry in Heq. by apply string_of_Z_unquoted in Heq.
  - simpl in Heq. by apply string_of_Z_unquoted in Heq.
  - f_equal. apply DecimalZ.to_int_inj.
    pose proof (int_of_string_of_Z n) as Hn. simpl in Heq. rewrite Heq in Hn.
    rewrite int_of_string_of_Z in Hn. by injection Hn.
Qed.

(** C9. For every string id, quotes and backslashes included, the literal
    written by enumerated clean-up (backslashes doubled, then single quotes
    preceded by a backslash, the result between single quotes) reads back as
    exactly that id; distinct ids have distinct literals; a numeric id is
    written as its digits, without quotes. *)
Theorem literal_round_trip :
  (∀ s : string,
     literal (IdString s)
     = String quote
         (replace_all quote (String backslash (String quote EmptyString))
            (replace_all backslash (String backslash (String backslash EmptyString)) s)
          +:+ String quote EmptyString)
     ∧ read_literal (literal (IdString s)) = Some (IdString s)) ∧
  (∀ a b : Id, a ≠ b → literal a ≠ literal b) ∧
  (∀ n : Z, literal (IdNumber n) = string_of_Z n
            ∧ ∀ rest, literal (IdNumber n) ≠ String quote rest).
Proof.
  split; [|split].
  - intros s. split; [reflexivity | apply read_literal_string].
  - intros a b Hne Heq. by apply Hne, literal_inj.
  - intros n. split; [reflexivity|].
    intros rest. apply string_of_Z_unquoted.
Qed.

Lemma literal_round_trip_witness :
  read_literal (literal (IdString "it's")) = Some (IdString "it's") ∧
  literal (IdString "7") ≠ literal (IdNumber 7).
Proof.
  destruct literal_round_trip as (Hstring & Hdistinct & _).
  split; [exact (proj2 (Hstring "it's")) | apply Hdistinct; discriminate].
Defined.

(** ** Clean-up *)

Section Cleanup.
Context `{Host}.

(** C4, amended. In enumerated mode ([limitSubquery] false, [cleanupLimit]
    positive), when the select of candidates returns no row, [cleanup] of
    the current class ends there: the select is the only statement it
    issued, no delete statement is sent, and the table is as the select left
    it. The older copy of the class, whose clean-up is inline in [set], goes
    on in the same circumstances: right after the select it sends a delete
    whose list is the text [NULL]; that delete removes no row. *)
Theorem cleanup_enumerated_nothing_to_delete
    (st : TypeormStore) (r : Repository) (n : Z) (w w1 : World) :
  repository st = Some r →
  cleanupLimit st = Some n →
  0 < n →
  limitSubquery st = false →
  getMany (expired_rows n (Date_now (ticks w))) w = (Returned [], w1) →
  let candidates := SelectFrom (expired_rows n (Date_now (ticks w))) in
  (cleanup st w = (Returned tt, w1) ∧
   events w1 = events w ++ [Issued candidates] ∧
   table w1 = table w ∧
   ∀ ids, Issued (DeleteFrom ids) ∈ events w1 → Issued (DeleteFrom ids) ∈ events w) ∧
  (∀ sid session callback json ttl_,
     JSON_stringify session = Returned json →
     getTTL st session (Some sid) = Returned ttl_ →
     ∃ rest, events (Legacy.set st sid session callback w).2
             = events w ++ Issued candidates
                 :: Issued (DeleteFrom (InLiterals "NULL")) :: rest) ∧
  (∀ now t, execute now (DeleteFrom (InLiterals "NULL")) t = Returned ([], t)).
Proof.
  intros Hconn Hlimit Hpos Hmode Hselect candidates.
  assert (events w1 = events w ++ [Issued candidates] ∧ table w1 = table w) as [Hev Htab].
  { unfold getMany, await in Hselect.
    destruct (storage_fault (ticks w)); [discriminate|].
    cbn in Hselect. injection Hselect as _ <-. by split. }
  split; [|split; [|reflexivity]].
  - assert (cleanup st w = (Returned tt, w1)) as Hrun.
    { unfold cleanup. rewrite Hlimit, Hmode.
      destruct n as [|p|p]; try lia.
      run. rewrite Hconn.
      unfold getMany in Hselect. by rewrite Hselect. }
    repeat split; try done.
    intros ids. rewrite Hev, elem_of_app, list_elem_of_singleton.
    intros [?|[=]]; done.
  - intros sid session callback json ttl_ Hjson Httl.
    set (D := DeleteFrom (InLiterals "NULL")).
    set (handler := λ err : Error, call_opt callback (with_error err);; handleError st err).
    assert (Legacy.set st sid session callback w
            = try_catch (await D;; upsert sid json ttl_;; call_opt callback no_arguments)
                handler w1) as ->.
    { unfold Legacy.set. fold handler. rewrite !try_catch_run. rewrite Hjson.
      unfold Legacy.this_repository, lift. rewrite Hconn, Hlimit, Hmode, !bind_run, Httl.
      match goal with |- context [try_catch ?b ?h] =>
        change (try_catch b h) with (upsert sid json ttl_) end.
      destruct n as [|p|p]; try lia.
      rewrite !bind_run. cbn [mret M_ret]. rewrite !bind_run. unfold now_ at 1.
      rewrite !bind_run, Hselect. cbn [length Nat.ltb Nat.leb mret M_ret].
      rewrite !bind_run. fold D. cbn [mret M_ret]. rewrite !bind_run.
      by destruct (await D w1) as [[reply|e] w2]. }
    rewrite try_catch_run, bind_run.
    destruct (await_run D w1) as (_ & Hissued & _).
    destruct (await D w1) as [[reply|e] w2]; cbn [snd] in Hissued.
    + destruct (quiet_upsert sid json ttl_ w2) as [stmts Hq].
      rewrite bind_run. destruct (upsert sid json ttl_ w2) as [[[]|e] w3]; cbn [snd] in Hq.
      * destruct callback as [cb|]; cbn [call_opt].
        -- rewrite call_run. destruct (cb no_arguments) as [e|].
           ++ destruct (catch_block_frame st (Some cb) (with_error e) e
                          {| table := table w3; ticks := ticks w3;
                             events := events w3 ++ [Called no_arguments] |})
                as (_ & _ & rest & Hrest & _).
              unfold handler. cbn [events] in Hrest. rewrite Hrest, Hq, Hissued, Hev.
              eexists. rewrite <- !app_assoc. reflexivity.
           ++ cbn [snd events]. rewrite Hq, Hissued, Hev.
              eexists. rewrite <- !app_assoc. reflexivity.
        -- cbn [mret M_ret snd]. rewrite Hq, Hissued, Hev.
           eexists. rewrite <- !app_assoc. reflexivity.
      * destruct (catch_block_frame st callback (with_error e) e w3)
          as (_ & _ & rest & Hrest & _).
        unfold handler. rewrite Hrest, Hq, Hissued, Hev.
        eexists. rewrite <- !app_assoc. reflexivity.
    + destruct (catch_block_frame st callback (with_error e) e w2)
        as (_ & _ & rest & Hrest & _).
      unfold handler. rewrite Hrest, Hissued, Hev.
      eexists. rewrite <- !app_assoc. reflexivity.
Qed.

End Cleanup.

Lemma cleanup_enumerated_nothing_to_delete_witness :
  @cleanup (sample_host no_fault) enumerating_store world_with_A
  = (Returned tt,
     {| table := table world_with_A; ticks := 1;
        events := [Issued (SelectFrom (expired_rows 10 1000))] |}).
Proof.
  refine (proj1 (proj1 (@cleanup_enumerated_nothing_to_delete (sample_host no_fault)
                          enumerating_store SessionRepository 10 world_with_A _
                          eq_refl eq_refl _ eq_refl _))).
  - reflexivity.
  - vm_compute. reflexivity.
Defined.

(** C4, as stated, fails on the older copy of the class: its [set] does
    send a delete when enumerated clean-up finds no candidate, with the list
    [NULL], which denotes no id: the statement removes nothing. *)
Lemma legacy_set_sends_null_list :
  events (@Legacy.set (sample_host no_fault) enumerating_store "B" sample_session None
            world_with_A).2
  = [Issued (SelectFrom (expired_rows 10 1000));
     Issued (DeleteFrom (InLiterals "NULL"));
     Issued (FindOneOrFail "B" true);
     Issued (insertion "B" sample_json 60 1003)]
  ∧ ∀ now t, execute now (DeleteFrom (InLiterals "NULL")) t = Returned ([], t).
Proof. split; [vm_compute; reflexivity | reflexivity]. Qed.

(** ** Visibility of records to the reads *)

Lemma elem_of_rows (x : ISession) (t : gmap Id Columns) :
  x ∈ rows t ↔ t !! id x = Some (columns_of x).
Proof.
  unfold rows. rewrite list_elem_of_fmap. split.
  - intros ([k c] & -> & Hin). apply elem_of_map_to_list in Hin.
    cbn. rewrite Hin. by destruct c.
  - intros Hx. exists (id x, columns_of x). split; [by destruct x|].
    by apply elem_of_map_to_list.
Qed.

Lemma elem_of_List_filter {A} (f : A → bool) (x : A) (l : list A) :
  x ∈ List.filter f l ↔ x ∈ l ∧ f x = true.
Proof. rewrite !list_elem_of_In. apply filter_In. Qed.

(** The filter of [createQueryBuilder] is visibility. *)
Lemma selects_live_rows (now : Z) (x : ISession) :
  selects (live_rows now) x = true ↔ visible now x.
Proof.
  unfold selects, live_rows, visible. cbn.
  rewrite !andb_true_iff, bool_decide_eq_true, Z.ltb_lt. tauto.
Qed.

Lemma selects_andWhere (c : Cond) (q : Select) (x : ISession) :
  selects (andWhere c q) x = selects q x && cond_holds c x.
Proof.
  unfold selects, andWhere. cbn. rewrite forallb_app. cbn.
  by rewrite andb_true_r, andb_assoc.
Qed.

(** [getOne] on a select by id: the row of that id, if the select keeps it. *)
Lemma head_select_by_id (q : Select) (sid : string) (t : gmap Id Columns) :
  sel_limit q = None →
  head (run_select (andWhere (IdEq sid) q) t) =
    match t !! IdString sid with
    | Some c => if selects q (row_of (IdString sid, c))
                then Some (row_of (IdString sid, c)) else None
    | None => None
    end.
Proof.
  intros Hlimit. unfold run_select. cbn [andWhere sel_limit]. rewrite Hlimit.
  assert (∀ x, x ∈ List.filter (selects (andWhere (IdEq sid) q)) (rows t) ↔
               ∃ c, t !! IdString sid = Some c ∧ x = row_of (IdString sid, c)
                    ∧ selects q x = true) as Hchar.
  { intros x. rewrite elem_of_List_filter, elem_of_rows, selects_andWhere, andb_true_iff.
    cbn [cond_holds]. rewrite bool_decide_eq_true. split.
    - intros (Hx & Hsel & Hid). exists (columns_of x). rewrite <- Hid.
      split; [done|]. split; [by destruct x | done].
    - intros (c & Hc & -> & Hsel). cbn. split; [by destruct c | done]. }
  destruct (List.filter _ (rows t)) as [|x l] eqn:Hl.
  - destruct (t !! IdString sid) as [c|] eqn:Hc; [|done].
    destruct (selects q (row_of (IdString sid, c))) eqn:Hsel; [|done].
    assert (row_of (IdString sid, c) ∈ @nil ISession) as Hin by (apply Hchar; eauto).
    by apply elem_of_nil in Hin.
  - assert (x ∈ x :: l) as Hin by apply list_elem_of_here.
    apply Hchar in Hin as (c & Hc & -> & Hsel). by rewrite Hc, Hsel.
Qed.

(** The entries of [all]. *)

Lemma own_property_set_property (k k' : string) (v : JsValue) (props : list (string * JsValue)) :
  own_property k (set_property k' v props)
  = if String.eqb k' k then v else own_property k props.
Proof.
  induction props as [|[k1 v1] rest IH]; cbn [set_property own_property]; [done|].
  destruct (String.eqb_spec k1 k') as [->|Hne]; cbn [own_property].
  - by destruct (String.eqb k' k).
  - rewrite IH. destruct (String.eqb_spec k1 k) as [->|]; [|done].
    by destruct (String.eqb_spec k' k) as [->|].
Qed.

Lemma own_property_app (k : string) (l1 l2 : list (string * JsValue)) :
  own_property k (l1 ++ l2)
  = if decide (k ∈ l1.*1) then own_property k l1 else own_property k l2.
Proof.
  induction l1 as [|[k1 v1] l1 IH]; [done|].
  cbn [app own_property fmap list_fmap fst]. destruct (String.eqb_spec k1 k) as [->|Hne].
  - rewrite decide_True; [done | apply list_elem_of_here].
  - rewrite IH. destruct (decide (k ∈ l1.*1)) as [Hin|Hout].
    + rewrite decide_True; [done | by apply list_elem_of_further].
    + rewrite decide_False; [done|]. by intros [->|]%elem_of_cons.
Qed.

(** Setting the properties of a list one after the other: a name of the
    list ends with its later value, any other name keeps what it had. *)
Lemma own_property_spread_last (k : string) (props : list (string * JsValue)) :
  ∀ acc,
  own_property k (foldl (λ acc kv, set_property kv.1 kv.2 acc) acc props)
  = if decide (k ∈ props.*1) then own_property k (reverse props) else own_property k acc.
Proof.
  induction props as [|[k1 v1] rest IH]; intros acc; [done|].
  cbn [foldl fst snd]. rewrite IH, own_property_set_property, reverse_cons, own_property_app.
  cbn [fmap list_fmap fst own_property].
  assert (k ∈ (reverse rest).*1 ↔ k ∈ rest.*1) as Hrev by (by rewrite fmap_reverse, elem_of_reverse).
  destruct (decide (k ∈ rest.*1)) as [Hin|Hout].
  - rewrite decide_True by (by apply list_elem_of_further).
    by rewrite decide_True by (by apply Hrev).
  - rewrite (decide_False (P := k ∈ (reverse rest).*1)) by (by rewrite Hrev).
    destruct (String.eqb_spec k1 k) as [->|Hne].
    + rewrite decide_True; [done | apply list_elem_of_here].
    + rewrite decide_False; [done|]. by intros [->|]%elem_of_cons.
Qed.

Lemma with_id_property (x : Id) (v : JsValue) (k : string) :
  get_prop (with_id x v) k = Returned (entry_property x v k).
Proof.
  unfold with_id, entry_property. cbn [get_prop]. rewrite own_property_spread_last.
  destruct (decide (k ∈ (spread v).*1)); [done|].
  cbn [own_property]. by rewrite String.eqb_sym.
Qed.

Lemma mapM_stops {A B} (f : A → Outcome B) (good : list A) (bad : A) (rest : list A) (e : Error) :
  (∀ x, x ∈ good → returned (f x) = true) →
  f bad = Threw e →
  mapM f (good ++ bad :: rest) = Threw e.
Proof.
  intros Hgood Hbad. induction good as [|x good IH]; cbn [app mapM].
  - by rewrite Hbad.
  - pose proof (Hgood x ltac:(apply list_elem_of_here)) as Hx.
    destruct (f x) as [y|]; [|done]. cbn.
    rewrite IH; [done|]. intros y' Hy'. apply Hgood. by apply list_elem_of_further.
Qed.

Section Reads.
Context `{Host}.

Lemma createQueryBuilder_run (st : TypeormStore) (r : Repository) (w : World) :
  repository st = Some r →
  createQueryBuilder st w = (Returned (live_rows (Date_now (ticks w))), w).
Proof. intros Hconn. unfold createQueryBuilder. run. by rewrite Hconn. Qed.

Lemma get_work_run (st : TypeormStore) (r : Repository) (sid : string) (w : World) :
  repository st = Some r →
  storage_fault (ticks w) = None →
  let now := Date_now (ticks w) in
  let w1 := {| table := table w; ticks := S (ticks w);
               events := events w ++ [Issued (SelectFrom (andWhere (IdEq sid) (live_rows now)))] |} in
  get_work st sid w =
    match table w !! IdString sid with
    | Some c =>
        if selects (live_rows now) (row_of (IdString sid, c))
        then match JSON_parse (col_json c) with
             | Returned v => (Returned (with_result v), w1)
             | Threw e => (Threw e, w1)
             end
        else (Returned no_arguments, w1)
    | None => (Returned no_arguments, w1)
    end.
Proof.
  intros Hconn Hok now w1. unfold get_work.
  rewrite bind_run, (createQueryBuilder_run st r) by done.
  unfold getOne. rewrite !bind_run.
  destruct (await_run (SelectFrom (andWhere (IdEq sid) (live_rows now))) w)
    as (_ & _ & _ & Hrun).
  fold now. rewrite (Hrun Hok). cbn [execute]. unfold mret at 1, M_ret at 1.
  rewrite head_select_by_id by done. fold w1.
  destruct (table w !! IdString sid) as [c|]; [|done].
  destruct (selects (live_rows now) (row_of (IdString sid, c))); [|done].
  rewrite bind_run. unfold lift. cbn [row_of json snd].
  by destruct (JSON_parse (col_json c)).
Qed.

Lemma all_work_run (st : TypeormStore) (r : Repository) (w : World) :
  repository st = Some r →
  storage_fault (ticks w) = None →
  let now := Date_now (ticks w) in
  let w1 := {| table := table w; ticks := S (ticks w);
               events := events w ++ [Issued (SelectFrom (live_rows now))] |} in
  all_work st w =
    match mapM annotate (run_select (live_rows now) (table w)) with
    | Returned result =>
        (Returned {| cb_err := None; cb_result := Some (JsArray result) |}, w1)
    | Threw e => (Threw e, w1)
    end.
Proof.
  intros Hconn Hok now w1. unfold all_work.
  rewrite bind_run, (createQueryBuilder_run st r) by done.
  unfold getMany. rewrite !bind_run.
  destruct (await_run (SelectFrom (live_rows now)) w) as (_ & _ & _ & Hrun).
  fold now. rewrite (Hrun Hok). cbn [execute]. fold w1.
  rewrite bind_run. unfold lift.
  by destruct (mapM annotate (run_select (live_rows now) (table w))).
Qed.

(** The sessions selected by [all] either all parse, and each becomes an
    entry, or there is a first one whose payload the parser rejects. *)
Lemma mapM_annotate_cases (sessions : list ISession) :
  (∃ entries, mapM annotate sessions = Returned entries ∧
              Forall2 (λ x entry, ∃ v, JSON_parse (json x) = Returned v
                                       ∧ entry = with_id (id x) v) sessions entries) ∨
  (∃ good bad tail e, sessions = good ++ bad :: tail ∧
                      (∀ x, x ∈ good → returned (JSON_parse (json x)) = true) ∧
                      JSON_parse (json bad) = Threw e ∧
                      mapM annotate sessions = Threw e).
Proof.
  induction sessions as [|x rest IH].
  - left. exists []. split; [reflexivity | constructor].
  - destruct (JSON_parse (json x)) as [v|e] eqn:Hparse.
    + assert (annotate x = Returned (with_id (id x) v)) as Hx
        by (unfold annotate; by rewrite Hparse).
      destruct IH as [(entries & Hmap & Hall)|(good & bad & tail & e & -> & Hgood & Hbad & Hmap)].
      * left. exists (with_id (id x) v :: entries). split.
        -- cbn [mapM]. rewrite Hx. cbn [mbind Outcome_bind]. by rewrite Hmap.
        -- constructor; [by exists v | done].
      * right. exists (x :: good), bad, tail, e. split; [done|]. split; [|split; [done|]].
        -- intros y [->|Hy]%elem_of_cons; [by rewrite Hparse | by apply Hgood].
        -- cbn [app mapM]. rewrite Hx. cbn [mbind Outcome_bind]. by rewrite Hmap.
    + right. exists [], x, rest, e. split; [done|]. split; [by intros y ?%elem_of_nil|].
      split; [done|].
      assert (annotate x = Threw e) as Hx by (unfold annotate; by rewrite Hparse).
      cbn [mapM]. by rewrite Hx.
Qed.

(** C2, amended. On a connected store whose repository answers, a stored
    record is selected by a read iff it is visible ([destroyedAt] null and
    [expiredAt > now]) at the time of the read. [get(sid)] hands the callback
    what [JSON.parse] makes of a visible record's payload, or the error of
    the parser when it rejects the payload; for an expired, soft-deleted or
    absent [sid] it invokes the callback with no error and no session data,
    and that is all it does. [all] selects exactly the visible records;
    when every payload parses the callback receives one entry per visible
    record, in the order selected, carrying the properties of the parsed
    payload and the id of the record (unless the payload has an [id] of its
    own); otherwise it receives the error of the first payload that the
    parser rejects, and an empty array. *)
Theorem reads_return_visible_records
    (st : TypeormStore) (r : Repository) (sid : string) (callback : Callback) (w : World) :
  repository st = Some r →
  storage_fault (ticks w) = None →
  let now := Date_now (ticks w) in
  let by_id := SelectFrom (andWhere (IdEq sid) (live_rows now)) in
  let sessions := run_select (live_rows now) (table w) in
  (∀ c, table w !! IdString sid = Some c →
        visible now (row_of (IdString sid, c)) →
        ∃ rest, events (get st sid callback w).2
                = events w ++ Issued by_id
                    :: Called (match JSON_parse (col_json c) with
                               | Returned v => with_result v
                               | Threw e => with_error e
                               end) :: rest) ∧
  ((∀ c, table w !! IdString sid = Some c → ¬ visible now (row_of (IdString sid, c))) →
     (∃ rest, events (get st sid callback w).2
              = events w ++ Issued by_id :: Called no_arguments :: rest) ∧
     (callback no_arguments = None →
        get st sid callback w
        = (Returned tt, {| table := table w; ticks := S (ticks w);
                           events := events w ++ [Issued by_id; Called no_arguments] |}))) ∧
  (∀ x, x ∈ sessions ↔ x ∈ rows (table w) ∧ visible now x) ∧
  (∃ args rest,
     events (all st callback w).2
     = events w ++ Issued (SelectFrom (live_rows now)) :: Called args :: rest ∧
     ((∃ entries,
         args = {| cb_err := None; cb_result := Some (JsArray entries) |} ∧
         Forall2 (λ x entry, ∃ v, JSON_parse (json x) = Returned v ∧
                                  ∀ k, get_prop entry k = Returned (entry_property (id x) v k))
           sessions entries) ∨
      (∃ good bad tail e,
         sessions = good ++ bad :: tail ∧
         (∀ x, x ∈ good → returned (JSON_parse (json x)) = true) ∧
         JSON_parse (json bad) = Threw e ∧
         args = {| cb_err := Some e; cb_result := Some (JsArray []) |}))).
Proof.
  intros Hconn Hok now by_id sessions.
  pose proof (get_work_run st r sid w Hconn Hok) as Hget. cbv zeta in Hget. fold now in Hget.
  pose proof (all_work_run st r w Hconn Hok) as Hall. cbv zeta in Hall. fold now in Hall.
  split; [|split; [|split]].
  - intros c Hc Hvis.
    apply selects_live_rows in Hvis. rewrite Hc, Hvis in Hget.
    destruct (JSON_parse (col_json c)) as [v|e].
    + destruct (perform_success st (OpGet sid callback) callback _ _ _ Hget eq_refl)
        as [[rest Hev] _].
      exists rest. cbn [perform events] in Hev. by rewrite Hev, <- app_assoc.
    + change (get st sid callback) with (perform st (OpGet sid callback)).
      rewrite perform_facade, try_catch_run, bind_run. cbn [work]. rewrite Hget.
      match goal with |- context [(_ ;; handleError st e) ?w1] =>
        pose proof (catch_block st (Some callback) (with_error e) e w1) as (_ & _ & Hev) end.
      cbn [callback_of error_arguments]. destruct (callback (with_error e)) as [e'|].
      * cbv zeta in Hev. rewrite Hev. cbn [snd events]. exists []. by rewrite <- app_assoc.
      * rewrite Hev. cbn [events]. eexists. rewrite <- app_assoc. reflexivity.
  - intros Hinvisible.
    assert (get_work st sid w
            = (Returned no_arguments,
               {| table := table w; ticks := S (ticks w);
                  events := events w ++ [Issued by_id] |})) as Hwork.
    { rewrite Hget. destruct (table w !! IdString sid) as [c|] eqn:Hc; [|done].
      destruct (selects (live_rows now) (row_of (IdString sid, c))) eqn:Hsel; [|done].
      apply selects_live_rows in Hsel. by apply Hinvisible in Hsel. }
    destruct (perform_success st (OpGet sid callback) callback _ _ _ Hwork eq_refl)
      as [[rest Hev] Hdone].
    cbn [perform events table ticks] in Hev, Hdone. split.
    + exists rest. by rewrite Hev, <- app_assoc.
    + intros Hcb. rewrite (Hdone Hcb). by rewrite <- app_assoc.
  - intros x. unfold sessions, run_select. cbn [live_rows where_ sel_limit createQueryBuilder_session].
    rewrite elem_of_List_filter.
    change (selects _ x) with (selects (live_rows now) x).
    by rewrite selects_live_rows.
  - fold sessions in Hall.
    destruct (mapM_annotate_cases sessions)
      as [(entries & Hmap & Hentries)|(good & bad & tail & e & Hsplit & Hgood & Hbad & Hmap)];
      rewrite Hmap in Hall.
    + destruct (perform_success st (OpAll callback) callback _ _ _ Hall eq_refl)
        as [[rest Hev] _].
      eexists _, rest. split; [cbn [perform events] in Hev; by rewrite Hev, <- app_assoc|].
      left. exists entries. split; [done|].
      eapply Forall2_impl; [exact Hentries|].
      intros x entry (v & Hparse & ->). exists v. split; [done|].
      intros k. apply with_id_property.
    + change (all st callback) with (perform st (OpAll callback)).
      rewrite perform_facade, try_catch_run, bind_run. cbn [work]. rewrite Hall.
      match goal with |- context [(_ ;; handleError st e) ?w1] =>
        pose proof (catch_block st (Some callback) (error_arguments (OpAll callback) e) e w1)
          as (_ & _ & Hev) end.
      cbn [callback_of error_arguments] in Hev |- *.
      exists {| cb_err := Some e; cb_result := Some (JsArray []) |}.
      destruct (callback {| cb_err := Some e; cb_result := Some (JsArray []) |}) as [e'|].
      * cbv zeta in Hev. rewrite Hev. cbn [snd events]. exists []. split.
        -- by rewrite <- app_assoc.
        -- right. by exists good, bad, tail, e.
      * rewrite Hev. cbn [events]. eexists. split.
        -- rewrite <- app_assoc. reflexivity.
        -- right. by exists good, bad, tail, e.
Qed.

End Reads.

Lemma reads_return_visible_records_witness :
  (∃ rest,
     events (@get (sample_host no_fault) connected_store "A" accepting world_with_A).2
     = events world_with_A ++
         Issued (SelectFrom (andWhere (IdEq "A") (live_rows 1000)))
         :: Called (with_result sample_session) :: rest) ∧
  ∃ args rest,
    events (@all (sample_host no_fault) connected_store accepting world_with_A).2
    = events world_with_A ++ Issued (SelectFrom (live_rows 1000)) :: Called args :: rest ∧
    ((∃ entries,
        args = {| cb_err := None; cb_result := Some (JsArray entries) |} ∧
        Forall2 (λ x entry,
                   ∃ v, @JSON_parse (sample_host no_fault) (json x) = Returned v ∧
                        ∀ k, get_prop entry k = Returned (entry_property (id x) v k))
          (run_select (live_rows 1000) (table world_with_A)) entries) ∨
     (∃ good bad tail e,
        run_select (live_rows 1000) (table world_with_A) = good ++ bad :: tail ∧
        (∀ x, x ∈ good → returned (@JSON_parse (sample_host no_fault) (json x)) = true) ∧
        @JSON_parse (sample_host no_fault) (json bad) = Threw e ∧
        args = {| cb_err := Some e; cb_result := Some (JsArray []) |})).
Proof.
  pose proof (@reads_return_visible_records (sample_host no_fault) connected_store
                SessionRepository "A" accepting world_with_A eq_refl eq_refl)
    as (Hvisible & _ & _ & Hall).
  split; [|exact Hall].
  apply (Hvisible {| col_json := sample_json; col_expiredAt := 31000;
                     col_destroyedAt := None |}).
  - vm_compute. reflexivity.
  - split; reflexivity.
Defined.

(** The entry that [all] hands over for the row of the sample world: the
    id of the row first, then the properties of the parsed payload. *)
Example all_hands_over_entry :
  events (@all (sample_host no_fault) connected_store accepting world_with_A).2
  = [Issued (SelectFrom (live_rows 1000));
     Called {| cb_err := None;
               cb_result :=
                 Some (JsArray [JsObject [("id", JsString "A");
                                          ("cookie", JsObject [("maxAge", JsNumber 60000)]);
                                          ("user", JsString "ann")]]) |}].
Proof. vm_compute. reflexivity. Qed.

(** C2, as stated, fails: a visible record whose payload [JSON.parse]
    rejects is not returned by either read; [get] reports the error of the
    parser, and [all] reports it with an empty array. *)
Lemma visible_malformed_record_is_not_returned :
  table world_with_malformed_A !! IdString "A"
  = Some {| col_json := "{oops"; col_expiredAt := 31000; col_destroyedAt := None |} ∧
  visible 1000
    (row_of (IdString "A",
             {| col_json := "{oops"; col_expiredAt := 31000; col_destroyedAt := None |})) ∧
  events (@get (sample_host no_fault) connected_store "A" accepting world_with_malformed_A).2
  = [Issued (SelectFrom (andWhere (IdEq "A") (live_rows 1000)));
     Called (with_error (SyntaxError "Unexpected token in JSON"));
     Emitted "disconnect" (Some (SyntaxError "Unexpected token in JSON"))] ∧
  events (@all (sample_host no_fault) connected_store accepting world_with_malformed_A).2
  = [Issued (SelectFrom (live_rows 1000));
     Called {| cb_err := Some (SyntaxError "Unexpected token in JSON");
               cb_result := Some (JsArray []) |};
     Emitted "disconnect" (Some (SyntaxError "Unexpected token in JSON"))].
Proof.
  split; [vm_compute; reflexivity|]. split; [split; reflexivity|].
  split; vm_compute; reflexivity.
Qed.

(** With a time to live of 60 seconds, a session set at time 0 expires at
    60000: [get] still returns it at 59000 and no longer at 61000. *)
Example get_before_and_after_expiry :
  let stored := (@set (host_at 0) connected_one_minute_store "A" sample_session None
                   empty_world).2 in
  table stored !! IdString "A"
  = Some {| col_json := sample_json; col_expiredAt := 60000; col_destroyedAt := None |}
  ∧ events (@get (host_at 59000) connected_one_minute_store "A" accepting
              {| table := table stored; ticks := 0; events := [] |}).2
    = [Issued (SelectFrom (andWhere (IdEq "A") (live_rows 59000)));
       Called (with_result sample_session)]
  ∧ events (@get (host_at 61000) connected_one_minute_store "A" accepting
              {| table := table stored; ticks := 0; events := [] |}).2
    = [Issued (SelectFrom (andWhere (IdEq "A") (live_rows 61000)));
       Called no_arguments].
Proof. repeat split; vm_compute; reflexivity. Qed.

(** ** The upsert protocol of [set] *)

Section Upsert.
Context `{Host}.

Lemma set_work_run (st : TypeormStore) (r : Repository) (sid : string)
    (session : SessionData) (json : string) (ttl_ : Z) (w w0 : World) :
  repository st = Some r →
  JSON_stringify session = Returned json →
  getTTL st session (Some sid) = Returned ttl_ →
  cleanup st w = (Returned tt, w0) →
  set_work st sid session w = (upsert sid json ttl_;; mret no_arguments) w0.
Proof.
  intros Hconn Hjson Httl Hclean. unfold set_work, getRepository, lift.
  rewrite bind_run, Hconn. cbn [mret M_ret]. rewrite Hjson, !bind_run, Httl.
  by rewrite bind_run, Hclean.
Qed.

(** The three courses of the inner [try]/[catch]. *)
Lemma upsert_run (sid json : string) (ttl_ : Z) (w0 : World) :
  let find := await (FindOneOrFail sid true) w0 in
  let update := await (conditional_update sid json ttl_ (Date_now (ticks find.2))) find.2 in
  upsert sid json ttl_ w0 =
    match find.1 with
    | Returned _ =>
        match update.1 with
        | Returned _ => (Returned tt, update.2)
        | Threw _ =>
            (await (insertion sid json ttl_ (Date_now (ticks update.2)));; mret tt) update.2
        end
    | Threw _ => (await (insertion sid json ttl_ (Date_now (ticks find.2)));; mret tt) find.2
    end.
Proof.
  cbv zeta. unfold upsert. rewrite try_catch_run, !bind_run.
  destruct (await (FindOneOrFail sid true) w0) as [[found|e] w1]; cbn [fst snd].
  - unfold now_ at 1. rewrite !bind_run.
    fold (conditional_update sid json ttl_ (Date_now (ticks w1))).
    destruct (await (conditional_update sid json ttl_ (Date_now (ticks w1))) w1)
      as [[reply|e] w2]; cbn [fst snd]; [done|].
    unfold now_. by rewrite !bind_run.
  - unfold now_. by rewrite !bind_run.
Qed.

(** C1, amended. In every [set] on a connected store that gets as far as the
    upsert (the payload serialized, the time to live computed, the clean-up
    done), the first statement is a lookup of the row of [sid] that counts
    soft-deleted rows: it succeeds whenever the table has a row of that id
    and the repository answers, and it fails when there is no such row. When
    the lookup succeeds, [set] issues an update restricted to
    [id = sid AND destroyedAt IS NULL]; when that update completes, whatever
    the number of rows it matched, nothing is inserted; when the update
    itself throws, an insert follows. When the lookup throws, [set] inserts a
    row with the given id and json and [expiredAt = now + ttl * 1000]. *)
Theorem set_upsert_protocol
    (st : TypeormStore) (r : Repository) (sid : string) (session : SessionData)
    (callback : option Callback) (json : string) (ttl_ : Z) (w w0 : World) :
  repository st = Some r →
  JSON_stringify session = Returned json →
  getTTL st session (Some sid) = Returned ttl_ →
  cleanup st w = (Returned tt, w0) →
  let lookup := FindOneOrFail sid true in
  let after := events (set st sid session callback w).2 in
  (storage_fault (ticks w0) = None →
     ∀ c, table w0 !! IdString sid = Some c →
          ∃ w1, await lookup w0 = (Returned [row_of (IdString sid, c)], w1)) ∧
  (table w0 !! IdString sid = None → ∃ e w1, await lookup w0 = (Threw e, w1)) ∧
  (∀ found w1, await lookup w0 = (Returned found, w1) →
     let update := conditional_update sid json ttl_ (Date_now (ticks w1)) in
     (∀ reply w2, await update w1 = (Returned reply, w2) →
        ∃ rest, after = events w0 ++ Issued lookup :: Issued update :: rest
                ∧ ∀ s, Issued s ∉ rest) ∧
     (∀ e w2, await update w1 = (Threw e, w2) →
        ∃ rest, after = events w0 ++ Issued lookup :: Issued update
                          :: Issued (insertion sid json ttl_ (Date_now (ticks w2))) :: rest
                ∧ ∀ s, Issued s ∉ rest)) ∧
  (∀ e w1, await lookup w0 = (Threw e, w1) →
     ∃ rest, after = events w0 ++ Issued lookup
                       :: Issued (insertion sid json ttl_ (Date_now (ticks w1))) :: rest
             ∧ ∀ s, Issued s ∉ rest).
Proof.
  intros Hconn Hjson Httl Hclean lookup after.
  assert (∃ rest, after = events (upsert sid json ttl_ w0).2 ++ rest
                  ∧ ∀ s, Issued s ∉ rest) as (rest & Hafter & Hrest).
  { subst after.
    change (set st sid session callback) with (perform st (OpSet sid session callback)).
    destruct (perform_after_work st (OpSet sid session callback) w)
      as (_ & _ & rest & Hev & Hrest).
    cbn [work] in Hev.
    rewrite (set_work_run st r sid session json ttl_ w w0) in Hev by done.
    rewrite bind_ret_events in Hev. by exists rest. }
  pose proof (upsert_run sid json ttl_ w0) as Hrun. cbv zeta in Hrun. fold lookup in Hrun.
  split; [|split; [|split]].
  - intros Hok c Hc.
    destruct (await_run lookup w0) as (_ & _ & _ & Hfind). rewrite (Hfind Hok).
    cbn [execute lookup]. rewrite Hc. cbn [orb]. by eexists.
  - intros Hnone.
    destruct (await_run lookup w0) as (_ & _ & Hfault & Hfind).
    destruct (storage_fault (ticks w0)) as [e|].
    + rewrite (Hfault e eq_refl). by eexists _, _.
    + rewrite (Hfind eq_refl). cbn [execute lookup]. rewrite Hnone. by eexists _, _.
  - intros found w1 Hfind update.
    destruct (await_run lookup w0) as (_ & Hev1 & _).
    rewrite Hfind in Hrun, Hev1. cbn [fst snd] in Hrun, Hev1. fold update in Hrun.
    destruct (await_run update w1) as (_ & Hev2 & _).
    split.
    + intros reply w2 Hupd. rewrite Hupd in Hrun, Hev2. cbn [fst snd] in Hrun, Hev2.
      exists rest. split; [|done].
      rewrite Hafter, Hrun. cbn [snd]. by rewrite Hev2, Hev1, <- !app_assoc.
    + intros e w2 Hupd. rewrite Hupd in Hrun, Hev2. cbn [fst snd] in Hrun, Hev2.
      exists rest. split; [|done].
      destruct (await_run (insertion sid json ttl_ (Date_now (ticks w2))) w2)
        as (_ & Hev3 & _).
      by rewrite Hafter, Hrun, bind_ret_events, Hev3, Hev2, Hev1, <- !app_assoc.
  - intros e w1 Hfind.
    destruct (await_run lookup w0) as (_ & Hev1 & _).
    rewrite Hfind in Hrun, Hev1. cbn [fst snd] in Hrun, Hev1.
    exists rest. split; [|done].
    destruct (await_run (insertion sid json ttl_ (Date_now (ticks w1))) w1)
      as (_ & Hev3 & _).
    by rewrite Hafter, Hrun, bind_ret_events, Hev3, Hev1, <- !app_assoc.
Qed.

End Upsert.

Lemma set_upsert_protocol_witness :
  ∃ rest,
    events (@set (sample_host no_fault) connected_store "A" sample_session
              (Some accepting) world_with_A).2
    = events world_with_A ++
        Issued (FindOneOrFail "A" true)
        :: Issued (conditional_update "A" sample_json 60 1001) :: rest
    ∧ ∀ s, Issued s ∉ rest.
Proof.
  pose proof (@set_upsert_protocol (sample_host no_fault) connected_store
                SessionRepository "A" sample_session (Some accepting) sample_json 60
                world_with_A world_with_A eq_refl eq_refl eq_refl eq_refl)
    as (_ & _ & Hfound & _).
  edestruct Hfound as [Hcompleted _]; [reflexivity|].
  eapply Hcompleted. reflexivity.
Defined.

(** C1, as stated, fails: the lookup finds the row of [A], the conditional
    update is rejected by the storage engine, and [set] goes on to insert. *)
Lemma insert_after_successful_lookup :
  returned (@await (sample_host second_call_fails) (FindOneOrFail "A" true) world_with_A).1
  = true ∧
  events (@set (sample_host second_call_fails) connected_store "A" sample_session
            (Some accepting) world_with_A).2
  = [Issued (FindOneOrFail "A" true);
     Issued (conditional_update "A" sample_json 60 1001);
     Issued (insertion "A" sample_json 60 1002);
     Called (with_error (QueryFailedError "UNIQUE constraint failed: session.id"));
     Emitted "disconnect" (Some (QueryFailedError "UNIQUE constraint failed: session.id"))].
Proof. split; vm_compute; reflexivity. Qed.

(** A soft-deleted row is found by the lookup and missed by the conditional
    update: nothing is inserted and the row stays soft-deleted. *)
Example set_after_destroy_leaves_row_deleted :
  let destroyed := (@destroy (sample_host no_fault) connected_store (OneSid "A") None
                      world_with_A).2 in
  let after := (@set (sample_host no_fault) connected_store "A" sample_session None
                  destroyed).2 in
  events after
  = [Issued (SoftDelete "A"); Issued (FindOneOrFail "A" true);
     Issued (conditional_update "A" sample_json 60 1002)]
  ∧ table after !! IdString "A"
    = Some {| col_json := sample_json; col_expiredAt := 31000;
              col_destroyedAt := Some 1000 |}.
Proof. split; vm_compute; reflexivity. Qed.

(** ** Refreshing the expiry *)

Section Touch.
Context `{Host}.

Lemma touch_work_run (st : TypeormStore) (r : Repository) (sid : string)
    (session : SessionData) (ttl_ : Z) (w : World) :
  repository st = Some r →
  getTTL st session None = Returned ttl_ →
  touch_work st sid session w
  = (await (expiry_update sid ttl_ (Date_now (ticks w)));; mret no_arguments) w.
Proof.
  intros Hconn Httl. unfold touch_work, getRepository, lift, now_.
  rewrite !bind_run, Httl, Hconn. reflexivity.
Qed.

Lemma touch_work_stopped
    (st : TypeormStore) (sid : string) (session : SessionData) (w : World) :
  (∀ ttl_, getTTL st session None ≠ Returned ttl_) ∨ repository st = None →
  (touch_work st sid session w).2 = w.
Proof.
  intros Hstop. unfold touch_work, getRepository, lift. rewrite bind_run.
  destruct (getTTL st session None) as [ttl_|e]; [|done].
  destruct Hstop as [Hno|Hconn]; [by destruct (Hno ttl_)|].
  rewrite bind_run, Hconn. done.
Qed.

Lemma touch_work_table
    (st : TypeormStore) (sid : string) (session : SessionData) (w : World) :
  table (touch_work st sid session w).2 = table w ∨
  ∃ ttl_, getTTL st session None = Returned ttl_ ∧ is_Some (repository st) ∧
          storage_fault (ticks w) = None ∧
          table (touch_work st sid session w).2
          = alter (patch {| set_expiredAt := Date_now (ticks w) + ttl_ * 1000;
                            set_json := None |}) (IdString sid) (table w).
Proof.
  destruct (getTTL st session None) as [ttl_|e] eqn:Httl;
    [|left; rewrite touch_work_stopped; [done | left; congruence]].
  destruct (repository st) as [r|] eqn:Hconn;
    [|left; rewrite touch_work_stopped; [done | by right]].
  rewrite (touch_work_run st r sid session ttl_) by done. rewrite bind_run.
  destruct (await_run (expiry_update sid ttl_ (Date_now (ticks w))) w)
    as (_ & _ & Hfault & Hok).
  destruct (storage_fault (ticks w)) as [e|].
  - left. by rewrite (Hfault e eq_refl).
  - right. exists ttl_. rewrite (Hok eq_refl). by repeat split.
Qed.

(** C8. [touch] changes nothing but [expiredAt] of the row of the given id:
    every other row, and that row's [json] and [destroyedAt], are as before.
    On a connected store it computes the time to live without the session id
    (a configured function receives no [sid]) and issues one statement, an
    update of [expiredAt] alone to [now + ttl * 1000] on the row of that id,
    with no condition on [destroyedAt]; when the update goes through, the row
    has the new [expiredAt] whether it is live or soft-deleted. *)
Theorem touch_refreshes_expiry_only
    (st : TypeormStore) (sid : string) (session : SessionData)
    (callback : option Callback) (w : World) :
  let now := Date_now (ticks w) in
  let w' := (touch st sid session callback w).2 in
  (∀ k, k ≠ IdString sid → table w' !! k = table w !! k) ∧
  (∀ c', table w' !! IdString sid = Some c' →
         ∃ c, table w !! IdString sid = Some c ∧ col_json c' = col_json c
              ∧ col_destroyedAt c' = col_destroyedAt c) ∧
  (∀ r ttl_, repository st = Some r → getTTL st session None = Returned ttl_ →
     (∀ f, ttl st = Some (TtlFunction f) → f this session None = Returned ttl_) ∧
     (∃ rest,
        events w' = events w ++
          Issued (Update {| where_id := sid; where_destroyedAtIsNull := false |}
                    {| set_expiredAt := now + ttl_ * 1000; set_json := None |}) :: rest
        ∧ ∀ s, Issued s ∉ rest) ∧
     (storage_fault (ticks w) = None →
        table w' !! IdString sid
        = (λ c, {| col_json := col_json c; col_expiredAt := now + ttl_ * 1000;
                   col_destroyedAt := col_destroyedAt c |}) <$> table w !! IdString sid)).
Proof.
  intros now w'. subst w'.
  change (touch st sid session callback) with (perform st (OpTouch sid session callback)).
  destruct (perform_after_work st (OpTouch sid session callback) w)
    as (Ht & _ & rest & Hev & Hrest).
  cbn [work] in Ht, Hev. rewrite Ht.
  split; [|split].
  - intros k Hk. destruct (touch_work_table st sid session w) as [->|(ttl_ & _ & _ & _ & ->)];
      [done|]. by rewrite lookup_alter_ne.
  - intros c'. destruct (touch_work_table st sid session w) as [->|(ttl_ & _ & _ & _ & ->)].
    + intros Hc. by exists c'.
    + rewrite lookup_alter_eq. destruct (table w !! IdString sid) as [c|]; [|done].
      intros [= <-]. by exists c.
  - intros r ttl_ Hconn Httl. split; [|split].
    + intros f Hf. unfold getTTL in Httl. by rewrite Hf in Httl.
    + exists rest. split; [|done]. rewrite Hev.
      rewrite (touch_work_run st r sid session ttl_) by done. rewrite bind_ret_events.
      fold now. destruct (await_run (expiry_update sid ttl_ now) w) as (_ & -> & _).
      by rewrite <- app_assoc.
    + intros Hok. rewrite (touch_work_run st r sid session ttl_) by done.
      rewrite bind_run. fold now.
      destruct (await_run (expiry_update sid ttl_ now) w) as (_ & _ & _ & Hrun).
      rewrite (Hrun Hok). cbn [execute expiry_update]. unfold mret, M_ret.
      cbn [snd table where_id]. rewrite lookup_alter_eq.
      by destruct (table w !! IdString sid).
Qed.

End Touch.

Lemma touch_refreshes_expiry_only_witness :
  table (@touch (sample_host no_fault) connected_store "A" sample_session None
           world_with_A).2 !! IdString "A"
  = Some {| col_json := sample_json; col_expiredAt := 61000; col_destroyedAt := None |}.
Proof.
  pose proof (@touch_refreshes_expiry_only (sample_host no_fault) connected_store
                "A" sample_session None world_with_A) as (_ & _ & Hconnected).
  destruct (Hconnected SessionRepository 60 eq_refl eq_refl) as (_ & _ & Hrow).
  exact (Hrow eq_refl).
Defined.

(** A soft-deleted row is refreshed all the same, and stays soft-deleted. *)
Example touch_after_destroy :
  let destroyed := (@destroy (sample_host no_fault) connected_store (OneSid "A") None
                      world_with_A).2 in
  table (@touch (sample_host no_fault) connected_store "A" sample_session None
           destroyed).2 !! IdString "A"
  = Some {| col_json := sample_json; col_expiredAt := 61001;
            col_destroyedAt := Some 1000 |}.
Proof. vm_compute. reflexivity. Qed.

(** ** Reporting of failures *)

Section Reporting.
Context `{Host}.

(** Before [connect], an operation fails with the not-connected error without
    a word to the repository; [touch] computes the time to live first, and
    fails with that computation's error if it has one. *)
Lemma work_before_connect (st : TypeormStore) (op : Operation) (w : World) :
  repository st = None →
  work st op w =
    match op with
    | OpTouch _ session _ =>
        match getTTL st session None with
        | Returned _ => (Threw NotConnected, w)
        | Threw e => (Threw e, w)
        end
    | _ => (Threw NotConnected, w)
    end.
Proof.
  intros Hconn.
  destruct op as [sid cb|sid session cb|sid cb|sid session cb|cb]; cbn [work].
  - unfold get_work, createQueryBuilder, getRepository. by rewrite !bind_run, Hconn.
  - unfold set_work, getRepository. by rewrite !bind_run, Hconn.
  - unfold destroy_work, getRepository. by rewrite !bind_run, Hconn.
  - unfold touch_work, getRepository, lift. rewrite !bind_run.
    destruct (getTTL st session None); [|done]. by rewrite !bind_run, Hconn.
  - unfold all_work, createQueryBuilder, getRepository. by rewrite !bind_run, Hconn.
Qed.

(** [connect] announces itself and hands back a store whose repository is set. *)
Lemma connect_run (st : TypeormStore) (repo : Repository) (w : World) :
  ∃ st', connect st repo w
         = (Returned st', {| table := table w; ticks := ticks w;
                             events := events w ++ [Emitted "connect" None] |})
         ∧ repository st' = Some repo ∧ ttl st' = ttl st ∧ onError st' = onError st
         ∧ cleanupLimit st' = cleanupLimit st ∧ limitSubquery st' = limitSubquery st.
Proof. eexists. split; [reflexivity | done]. Qed.

(** The only failure that the work of an operation hands to the callback
    itself, instead of throwing it, is a serialization failure in [set]. *)
Lemma work_returns_serialization_failure_only
    (st : TypeormStore) (op : Operation) (w w1 : World) (a : CallbackArgs) (er : Error) :
  work st op w = (Returned a, w1) →
  cb_err a = Some er →
  ∃ sid session callback,
    op = OpSet sid session callback ∧ JSON_stringify session = Threw er ∧ a = with_error er.
Proof.
  destruct op as [sid cb|sid session cb|sid cb|sid session cb|cb]; cbn [work].
  - unfold get_work. rewrite bind_run.
    destruct (createQueryBuilder st w) as [[qb|e] w2]; [|done].
    rewrite bind_run. destruct (getOne _ w2) as [[[session|]|e] w3]; [| |done].
    + rewrite bind_run. destruct (lift _ w3) as [[result|e] w4]; [|done].
      by intros [= <- <-].
    + by intros [= <- <-].
  - unfold set_work. rewrite bind_run.
    destruct (getRepository st w) as [[r|e] w2]; [|done].
    destruct (JSON_stringify session) as [json|er'] eqn:Hjson.
    + rewrite bind_run. destruct (lift _ w2) as [[ttl_|e] w3]; [|done].
      rewrite bind_run. destruct (cleanup st w3) as [[[]|e] w4]; [|done].
      rewrite bind_run. destruct (upsert sid json ttl_ w4) as [[[]|e] w5]; [|done].
      by intros [= <- <-].
    + intros [= <- <-] [= <-]. by exists sid, session, cb.
  - unfold destroy_work. rewrite bind_run.
    destruct (getRepository st w) as [[r|e] w2]; [|done].
    rewrite bind_run. destruct (Promise_all _ w2) as [[xs|e] w3]; [|done].
    by intros [= <- <-].
  - unfold touch_work. rewrite bind_run.
    destruct (lift _ w) as [[ttl_|e] w2]; [|done].
    rewrite bind_run. destruct (getRepository st w2) as [[r|e] w3]; [|done].
    rewrite !bind_run. destruct (now_ w3) as [[now|e] w4]; [|done].
    rewrite bind_run. destruct (await _ w4) as [[xs|e] w5]; [|done].
    by intros [= <- <-].
  - unfold all_work. rewrite bind_run.
    destruct (createQueryBuilder st w) as [[qb|e] w2]; [|done].
    rewrite bind_run. destruct (getMany qb w2) as [[sessions|e] w3]; [|done].
    rewrite bind_run. destruct (lift _ w3) as [[result|e] w4]; [|done].
    by intros [= <- <-].
Qed.

(** C5, amended. For every public operation and every failure of its work
    (whatever escapes the [try] block before the completion callback is
    invoked: the store is not connected, the time to live cannot be computed,
    a repository call rejects, a stored payload is malformed), nothing but
    repository statements has happened when the failure is caught; the
    failure is then reported through the completion callback, when one was
    supplied, and, once the callback has returned, it is forwarded to the
    secondary channel: the [onError] handler if one is configured, otherwise
    a "disconnect" emission. Without a callback it only reaches the secondary
    channel; if the callback throws on the error, it only reached the
    callback. ([perform_facade] shows that each method is its work, then the
    callback, under the handler.) *)
Theorem failure_reaches_both_channels
    (st : TypeormStore) (op : Operation) (w w1 : World) (e : Error) :
  work st op w = (Threw e, w1) →
  (∃ stmts, events w1 = events w ++ (Issued <$> stmts)) ∧
  table (perform st op w).2 = table w1 ∧
  (∀ cb, callback_of op = Some cb → cb (error_arguments op e) = None →
     events (perform st op w).2
     = events w1 ++ [Called (error_arguments op e); secondary st e]) ∧
  (callback_of op = None →
     events (perform st op w).2 = events w1 ++ [secondary st e]) ∧
  (∀ cb e', callback_of op = Some cb → cb (error_arguments op e) = Some e' →
     (perform st op w).1 = Threw e' ∧
     events (perform st op w).2 = events w1 ++ [Called (error_arguments op e)]).
Proof.
  intros Hwork. split.
  { destruct (quiet_work st op w) as [stmts Hq]. rewrite Hwork in Hq. by exists stmts. }
  rewrite perform_facade, try_catch_run, bind_run, Hwork.
  pose proof (catch_block st (callback_of op) (error_arguments op e) e w1) as (Ht & _ & Hev).
  split; [exact Ht|].
  split; [|split].
  - intros cb Hcb Hok. rewrite Hcb in Hev |- *. by rewrite Hok in Hev.
  - intros Hcb. by rewrite Hcb in Hev |- *.
  - intros cb e' Hcb Hthrow. rewrite Hcb in Hev |- *. rewrite Hthrow in Hev.
    cbv zeta in Hev. by rewrite Hev.
Qed.

(** C10, amended. For every public operation whose work succeeds, if the
    callback throws when invoked with the success result, the [catch] block
    invokes the same callback a second time, with the thrown error; when this
    second invocation returns, the error is forwarded to the error channel;
    when it throws as well, the operation ends there and rejects. The work
    itself invokes no callback, so these are the first and second
    invocations. *)
Theorem throwing_callback_is_invoked_again
    (st : TypeormStore) (op : Operation) (w w1 : World)
    (cb : Callback) (a : CallbackArgs) (e : Error) :
  work st op w = (Returned a, w1) →
  cb_err a = None →
  callback_of op = Some cb →
  cb a = Some e →
  (∃ stmts, events w1 = events w ++ (Issued <$> stmts)) ∧
  (cb (error_arguments op e) = None →
     events (perform st op w).2
     = events w1 ++ [Called a; Called (error_arguments op e); secondary st e]) ∧
  (∀ e', cb (error_arguments op e) = Some e' →
     (perform st op w).1 = Threw e' ∧
     events (perform st op w).2 = events w1 ++ [Called a; Called (error_arguments op e)]).
Proof.
  intros Hwork _ Hcb Hthrow. split.
  { destruct (quiet_work st op w) as [stmts Hq]. rewrite Hwork in Hq. by exists stmts. }
  rewrite perform_facade, try_catch_run, bind_run, Hwork, Hcb.
  cbn [call_opt]. rewrite call_run, Hthrow.
  pose proof (catch_block st (Some cb) (error_arguments op e) e
                {| table := table w1; ticks := ticks w1;
                   events := events w1 ++ [Called a] |}) as (_ & _ & Hev).
  cbn [call_opt events table ticks] in Hev. split.
  - intros Hok. rewrite Hok in Hev. by rewrite Hev, <- app_assoc.
  - intros e' Hagain. rewrite Hagain in Hev. cbv zeta in Hev. rewrite Hev.
    cbn. by rewrite <- app_assoc.
Qed.

Lemma set_work_serialization_failure
    (st : TypeormStore) (sid : string) (session : SessionData) (er : Error) (w : World) :
  JSON_stringify session = Threw er →
  set_work st sid session w =
    match repository st with
    | Some _ => (Returned (with_error er), w)
    | None => (Threw NotConnected, w)
    end.
Proof.
  intros Hjson. unfold set_work, getRepository. rewrite bind_run.
  destruct (repository st); [|done]. cbn [mret M_ret]. by rewrite Hjson.
Qed.

(** C6. When serializing the session data fails in [set], no storage
    operation is performed: no statement is issued, no repository call is
    awaited, and the table is unchanged. The serialization is attempted once
    the repository has been obtained; the error it throws is then reported to
    the callback, first thing, and if the callback returns, [set] is over and
    nothing else has happened. *)
Theorem set_serialization_failure
    (st : TypeormStore) (sid : string) (session : SessionData)
    (callback : option Callback) (er : Error) (w : World) :
  JSON_stringify session = Threw er →
  table (set st sid session callback w).2 = table w ∧
  ticks (set st sid session callback w).2 = ticks w ∧
  (∀ s, Issued s ∈ events (set st sid session callback w).2 → Issued s ∈ events w) ∧
  (∀ r cb, repository st = Some r → callback = Some cb →
     ∃ rest, events (set st sid session callback w).2
             = events w ++ Called (with_error er) :: rest) ∧
  (∀ r cb, repository st = Some r → callback = Some cb → cb (with_error er) = None →
     set st sid session callback w
     = (Returned tt, {| table := table w; ticks := ticks w;
                        events := events w ++ [Called (with_error er)] |})).
Proof.
  intros Hjson.
  change (set st sid session callback) with (perform st (OpSet sid session callback)).
  pose proof (set_work_serialization_failure st sid session er w Hjson) as Hwork.
  destruct (perform_after_work st (OpSet sid session callback) w)
    as (Ht & Hk & rest & Hev & Hrest).
  cbn [work] in Ht, Hk, Hev.
  assert ((set_work st sid session w).2 = w) as Hsame
    by (rewrite Hwork; by destruct (repository st)).
  rewrite Hsame in Ht, Hk, Hev.
  split; [exact Ht | split; [exact Hk|]]. split; [|split].
  - intros s. rewrite Hev, elem_of_app. intros [?|Hin]; [done|]. by apply Hrest in Hin.
  - intros r cb Hconn ->. rewrite Hconn in Hwork.
    by destruct (perform_success st (OpSet sid session (Some cb)) cb _ _ _ Hwork eq_refl).
  - intros r cb Hconn -> Hcb. rewrite Hconn in Hwork.
    by destruct (perform_success st (OpSet sid session (Some cb)) cb _ _ _ Hwork eq_refl)
      as [_ ->].
Qed.

End Reporting.

Lemma failure_reaches_both_channels_witness :
  @work (sample_host no_fault) (new_TypeormStore default_options) (OpGet "A" accepting)
    empty_world = (Threw NotConnected, empty_world) ∧
  events (@perform (sample_host no_fault) (new_TypeormStore default_options)
            (OpGet "A" accepting) empty_world).2
  = [Called (with_error NotConnected); Emitted "disconnect" (Some NotConnected)].
Proof.
  split; [reflexivity|].
  pose proof (@failure_reaches_both_channels (sample_host no_fault)
                (new_TypeormStore default_options) (OpGet "A" accepting)
                empty_world empty_world NotConnected eq_refl) as (_ & _ & Hboth & _).
  exact (Hboth accepting eq_refl eq_refl).
Defined.

(** C5, as stated, fails: a serialization failure in [set] is reported to the
    callback and [set] returns at once; neither [onError] nor a "disconnect"
    emission sees it. *)
Lemma serialization_failure_skips_secondary_channel :
  @JSON_stringify (sample_host no_fault) unserializable_session
  = Threw (TypeError "Do not know how to serialize a BigInt") ∧
  @set (sample_host no_fault) connected_store "A" unserializable_session (Some accepting)
    empty_world
  = (Returned tt,
     {| table := ∅; ticks := 0;
        events := [Called (with_error (TypeError "Do not know how to serialize a BigInt"))] |}).
Proof. split; reflexivity. Qed.

Lemma throwing_callback_is_invoked_again_witness :
  events (@perform (sample_host no_fault) connected_store
            (OpGet "A" throwing_on_success) world_with_A).2
  = [Issued (SelectFrom (andWhere (IdEq "A")
                           (where_ (ExpiredAtGt 1000) createQueryBuilder_session)));
     Called (with_result sample_session);
     Called (with_error (UserError "callback failed"));
     Emitted "disconnect" (Some (UserError "callback failed"))].
Proof.
  pose proof (@throwing_callback_is_invoked_again (sample_host no_fault) connected_store
                (OpGet "A" throwing_on_success) world_with_A
                {| table := table world_with_A; ticks := 1;
                   events := [Issued (SelectFrom (andWhere (IdEq "A")
                                (where_ (ExpiredAtGt 1000) createQueryBuilder_session)))] |}
                throwing_on_success (with_result sample_session)
                (UserError "callback failed")) as Hagain.
  destruct Hagain as (_ & Hforward & _); [vm_compute; reflexivity | reflexivity..|].
  exact (Hforward eq_refl).
Defined.

(** C10, as stated, fails in its parenthesis: when the callback throws on the
    error as well, the second invocation ends the operation and the error
    reaches neither [onError] nor a "disconnect" emission. *)
Lemma twice_throwing_callback_skips_error_channel :
  @get (sample_host no_fault) connected_store "A" throwing world_with_A
  = (Threw (UserError "callback failed"),
     {| table := table world_with_A; ticks := 1;
        events :=
          [Issued (SelectFrom (andWhere (IdEq "A")
                                 (where_ (ExpiredAtGt 1000) createQueryBuilder_session)));
           Called (with_result sample_session);
           Called (with_error (UserError "callback failed"))] |}).
Proof. vm_compute. reflexivity. Qed.

Lemma set_serialization_failure_witness :
  @JSON_stringify (sample_host no_fault) unserializable_session
  = Threw (TypeError "Do not know how to serialize a BigInt") ∧
  table (@set (sample_host no_fault) connected_store "A" unserializable_session
           (Some accepting) world_with_A).2 = table world_with_A.
Proof.
  split; [reflexivity|].
  exact (proj1 (@set_serialization_failure (sample_host no_fault) connected_store
                  "A" unserializable_session (Some accepting)
                  (TypeError "Do not know how to serialize a BigInt") world_with_A
                  eq_refl)).
Defined.

(** * Further properties of the store *)

(** ** Operations before [connect], and the completion callback *)

Section Connection.
Context `{Host}.

(** X1. On a store that is not connected every operation stops before any
    repository call: the table and the count of awaited calls are unchanged,
    no statement is issued, and the failure (the not-connected error, or for
    [touch] the error of the time-to-live computation, which comes first) is
    reported to the callback and then to the secondary channel. *)
Theorem operation_before_connect (st : TypeormStore) (op : Operation) (w : World) :
  repository st = None →
  let e := failure_before_connect st op in
  work st op w = (Threw e, w) ∧
  table (perform st op w).2 = table w ∧
  ticks (perform st op w).2 = ticks w ∧
  (∀ s, Issued s ∈ events (perform st op w).2 → Issued s ∈ events w) ∧
  (∀ cb, callback_of op = Some cb → cb (error_arguments op e) = None →
     events (perform st op w).2
     = events w ++ [Called (error_arguments op e); secondary st e]) ∧
  (callback_of op = None → events (perform st op w).2 = events w ++ [secondary st e]).
Proof.
  intros Hconn e.
  assert (work st op w = (Threw e, w)) as Hwork.
  { rewrite work_before_connect by done. subst e. unfold failure_before_connect.
    destruct op as [sid cb|sid session cb|sid cb|sid session cb|cb]; try done.
    by destruct (getTTL st session None). }
  split; [exact Hwork|].
  destruct (perform_after_work st op w) as (Ht & Hk & rest & Hev & Hrest).
  rewrite Hwork in Ht, Hk, Hev. cbn [snd] in Ht, Hk, Hev.
  split; [exact Ht | split; [exact Hk|]]. split.
  { intros s. rewrite Hev, elem_of_app. intros [?|Hin]; [done|]. by apply Hrest in Hin. }
  rewrite perform_facade, try_catch_run, bind_run, Hwork.
  pose proof (catch_block st (callback_of op) (error_arguments op e) e w) as (_ & _ & Hcatch).
  split.
  - intros cb Hcb Hok. rewrite Hcb in Hcatch |- *. by rewrite Hok in Hcatch.
  - intros Hcb. by rewrite Hcb in Hcatch |- *.
Qed.


(** X3. The reads never write: [get] and [all] leave the table as it was,
    whatever the repository answers and whatever the callback does. *)
Theorem reads_leave_table_unchanged (st : TypeormStore) (op : Operation) (w : World) :
  (∃ sid cb, op = OpGet sid cb) ∨ (∃ cb, op = OpAll cb) →
  table (perform st op w).2 = table w ∧
  ∀ s, Issued s ∈ events (perform st op w).2 → Issued s ∈ events w ∨ ∃ q, s = SelectFrom q.
Proof.
  intros Hop.
  destruct (perform_after_work st op w) as (Ht & _ & rest & Hev & Hrest).
  rewrite Ht, Hev. clear Ht Hev.
  assert (∀ q w0, table (await (SelectFrom q) w0).2 = table w0) as Hsel.
  { intros q w0. unfold await. by destruct (storage_fault (ticks w0)). }
  assert (table (work st op w).2 = table w ∧
          ∃ stmts, events (work st op w).2 = events w ++ (Issued <$> stmts)
                   ∧ ∀ s, s ∈ stmts → ∃ q, s = SelectFrom q) as [Ht (stmts & Hev & Hstmts)].
  { assert (∀ q (w0 : World), ∃ stmts,
               events (await (SelectFrom q) w0).2 = events w0 ++ (Issued <$> stmts)
               ∧ ∀ s, s ∈ stmts → ∃ q, s = SelectFrom q) as Hone.
    { intros q w0. exists [SelectFrom q]. destruct (await_run (SelectFrom q) w0) as (_ & -> & _).
      split; [done|]. intros s ->%list_elem_of_singleton. by exists q. }
    assert (∃ stmts, events w = events w ++ (Issued <$> stmts)
                     ∧ ∀ s, s ∈ stmts → ∃ q, s = SelectFrom q) as Hnone.
    { exists []. split; [by rewrite app_nil_r | by intros s ?%elem_of_nil]. }
    destruct (repository st) as [r|] eqn:Hconn;
      [|rewrite work_before_connect by done; by destruct Hop as [(? & ? & ->)|(? & ->)]].
    destruct Hop as [(sid & cb & ->)|(cb & ->)]; cbn [work].
    - unfold get_work, getOne.
      rewrite bind_run, (createQueryBuilder_run st r), !bind_run by done.
      specialize (Hsel (andWhere (IdEq sid) (live_rows (Date_now (ticks w)))) w).
      specialize (Hone (andWhere (IdEq sid) (live_rows (Date_now (ticks w)))) w).
      destruct (await _ w) as [[xs|e] w1]; [|done].
      cbn [snd mret M_ret] in *. destruct (head xs) as [session|]; [|done].
      rewrite bind_run. unfold lift. by destruct (JSON_parse (json session)).
    - unfold all_work, getMany.
      rewrite bind_run, (createQueryBuilder_run st r), !bind_run by done.
      specialize (Hsel (live_rows (Date_now (ticks w))) w).
      specialize (Hone (live_rows (Date_now (ticks w))) w).
      destruct (await _ w) as [[xs|e] w1]; [|done].
      cbn [snd] in *. rewrite bind_run. unfold lift. by destruct (mapM annotate xs). }
  split; [exact Ht|].
  intros s. rewrite Hev, !elem_of_app. intros [[?|Hin]|Hin]; [by left| |by apply Hrest in Hin].
  right. apply list_elem_of_fmap in Hin as (s' & [= <-] & Hs'). by apply Hstmts.
Qed.

End Connection.

Lemma operation_before_connect_witness :
  events (@perform (sample_host no_fault) one_minute_store
            (OpTouch "A" sample_session (Some accepting)) world_with_A).2
  = [Called (with_error NotConnected); Emitted "disconnect" (Some NotConnected)].
Proof.
  pose proof (@operation_before_connect (sample_host no_fault) one_minute_store
                (OpTouch "A" sample_session (Some accepting)) world_with_A eq_refl)
    as (_ & _ & _ & _ & Hboth & _).
  exact (Hboth accepting eq_refl eq_refl).
Defined.


Lemma reads_leave_table_unchanged_witness :
  table (@perform (sample_host no_fault) connected_store (OpAll throwing) world_with_A).2
  = table world_with_A.
Proof.
  refine (proj1 (@reads_leave_table_unchanged (sample_host no_fault) connected_store
                   (OpAll throwing) world_with_A _)).
  right. by exists throwing.
Defined.
(** ** Soft deletion *)

Lemma keeps_payloads_refl (t : gmap Id Columns) : keeps_payloads t t.
Proof. intros k. by destruct (t !! k). Qed.

Lemma keeps_payloads_trans (t1 t2 t3 : gmap Id Columns) :
  keeps_payloads t1 t2 → keeps_payloads t2 t3 → keeps_payloads t1 t3.
Proof.
  intros H12 H23 k. specialize (H12 k). specialize (H23 k).
  destruct (t1 !! k), (t2 !! k), (t3 !! k); try done.
  destruct H12 as (? & ? & ?), H23 as (? & ? & ?). split; [congruence|]. split; [congruence|auto].
Qed.

Lemma keeps_payloads_soft_delete (now : Z) (k : Id) (t : gmap Id Columns) :
  keeps_payloads t (alter (soft_delete now) k t).
Proof.
  intros k'. destruct (decide (k' = k)) as [->|Hne].
  - rewrite lookup_alter_eq. destruct (t !! k); [|done]. cbn. by eauto.
  - rewrite lookup_alter_ne by done. by destruct (t !! k').
Qed.

Section Destroy.
Context `{Host}.

Lemma await_soft_delete (sid : string) (w : World) :
  let after := await (SoftDelete sid) w in
  ticks after.2 = S (ticks w) ∧
  events after.2 = events w ++ [Issued (SoftDelete sid)] ∧
  match storage_fault (ticks w) with
  | Some e => after.1 = Threw e ∧ table after.2 = table w
  | None =>
      after.1 = Returned [] ∧
      table after.2 = alter (soft_delete (Date_now (ticks w))) (IdString sid) (table w)
  end.
Proof. unfold await. by destruct (storage_fault (ticks w)). Qed.

(** The soft deletes of [destroy], all started and then awaited together. *)
Lemma soft_deletes_run (sids : list string) : ∀ w,
  let after := Promise_all ((λ x, await (SoftDelete x)) <$> sids) w in
  ticks after.2 = (ticks w + length sids)%nat ∧
  events after.2 = events w ++ (Issued ∘ SoftDelete <$> sids) ∧
  keeps_payloads (table w) (table after.2) ∧
  (∀ k, k ∉ IdString <$> sids → table after.2 !! k = table w !! k) ∧
  (∀ j s c, sids !! j = Some s → storage_fault (ticks w + j) = None →
            table after.2 !! IdString s = Some c → is_Some (col_destroyedAt c)) ∧
  ((∀ i, (i < length sids)%nat → storage_fault (ticks w + i) = None) →
     returned after.1 = true) ∧
  (∀ i e, (i < length sids)%nat → storage_fault (ticks w + i) = Some e →
          (∀ j, (j < i)%nat → storage_fault (ticks w + j) = None) → after.1 = Threw e).
Proof.
  induction sids as [|x rest IH]; intros w.
  - cbn. rewrite Nat.add_0_r, app_nil_r.
    repeat split; try done; try lia. apply keeps_payloads_refl.
  - cbn [fmap list_fmap Promise_all length].
    destruct (await_soft_delete x w) as (Hk1 & He1 & Hone).
    destruct (await (SoftDelete x) w) as [o w1]. cbn [fst snd] in Hk1, He1, Hone.
    destruct (IH w1) as (Hk & He & Hkeep & Hother & Hmark & Hok & Hfail).
    change (list_fmap string (M (list ISession)) (λ x, await (SoftDelete x)) rest)
      with ((λ x, await (SoftDelete x)) <$> rest) in *.
    destruct (Promise_all ((λ x, await (SoftDelete x)) <$> rest) w1) as [os w2].
    cbn [fst snd] in *.
    assert (keeps_payloads (table w) (table w1)) as Hkeep1.
    { destruct (storage_fault (ticks w)); destruct Hone as [_ ->];
        [apply keeps_payloads_refl | apply keeps_payloads_soft_delete]. }
    split; [rewrite Hk, Hk1; lia|].
    split; [rewrite He, He1, <- app_assoc; reflexivity|].
    split; [by eapply keeps_payloads_trans|].
    split; [|split; [|split]].
    + intros k Hk'. rewrite not_elem_of_cons in Hk'. destruct Hk' as [Hne Hrest].
      rewrite Hother by done.
      destruct (storage_fault (ticks w)); destruct Hone as [_ ->]; [done|].
      by rewrite lookup_alter_ne.
    + intros [|j] s c Hj Hno Hc.
      * injection Hj as ->. rewrite Nat.add_0_r in Hno. rewrite Hno in Hone.
        destruct Hone as [_ Ht1]. specialize (Hkeep (IdString s)).
        rewrite Hc, Ht1, lookup_alter_eq in Hkeep.
        destruct (table w !! IdString s) as [c0|]; [|done]. cbn in Hkeep.
        destruct Hkeep as (_ & _ & Hd). apply Hd. by eexists.
      * apply (Hmark j s c); [done| |done].
        rewrite Hk1. by replace (S (ticks w) + j)%nat with (ticks w + S j)%nat by lia.
    + intros Hall. pose proof (Hall 0%nat ltac:(lia)) as H0.
      rewrite Nat.add_0_r in H0. rewrite H0 in Hone. destruct Hone as [-> _].
      assert (returned os = true) as Hos.
      { apply Hok. intros i Hi. rewrite Hk1.
        replace (S (ticks w) + i)%nat with (ticks w + S i)%nat by lia. apply Hall. lia. }
      by destruct os.
    + intros [|i] e Hi He' Hbefore.
      * rewrite Nat.add_0_r in He'. rewrite He' in Hone. by destruct Hone as [-> _].
      * pose proof (Hbefore 0%nat ltac:(lia)) as H0.
        rewrite Nat.add_0_r in H0. rewrite H0 in Hone. destruct Hone as [-> _].
        rewrite (Hfail i e); [done|lia| |].
        -- rewrite Hk1. by replace (S (ticks w) + i)%nat with (ticks w + S i)%nat by lia.
        -- intros j Hj. rewrite Hk1.
           replace (S (ticks w) + j)%nat with (ticks w + S j)%nat by lia. apply Hbefore. lia.
Qed.

Lemma destroy_work_run (st : TypeormStore) (r : Repository) (sid : SidArg) (w : World) :
  repository st = Some r →
  destroy_work st sid w
  = (Promise_all ((λ x, await (SoftDelete x)) <$> sids_of sid);; mret no_arguments) w.
Proof. intros Hconn. unfold destroy_work, getRepository. by rewrite bind_run, Hconn. Qed.

(** X4. [destroy] never removes a row and never changes a payload or an
    expiry: every row is still there with its [json] and [expiredAt], rows
    already soft-deleted stay so, and rows of other ids are untouched. On a
    connected store every id whose soft delete the repository accepts has
    its row marked soft-deleted, for one id and for an array of ids alike. *)
Theorem destroy_soft_deletes
    (st : TypeormStore) (sid : SidArg) (callback : option Callback) (w : World) :
  let t' := table (destroy st sid callback w).2 in
  keeps_payloads (table w) t' ∧
  (∀ k, k ∉ IdString <$> sids_of sid → t' !! k = table w !! k) ∧
  (∀ r j s c, repository st = Some r →
              sids_of sid !! j = Some s → storage_fault (ticks w + j) = None →
              t' !! IdString s = Some c → is_Some (col_destroyedAt c)).
Proof.
  intros t'. subst t'.
  change (destroy st sid callback) with (perform st (OpDestroy sid callback)).
  destruct (perform_after_work st (OpDestroy sid callback) w) as (-> & _).
  cbn [work].
  destruct (repository st) as [r|] eqn:Hconn.
  - rewrite (destroy_work_run st r) by done. rewrite bind_run.
    destruct (soft_deletes_run (sids_of sid) w) as (_ & _ & Hkeep & Hother & Hmark & _).
    destruct (Promise_all _ w) as [[xs|e] w1]; cbn [snd] in *.
    + split; [done | split; [done|]]. intros r' j s c _. apply Hmark.
    + split; [done | split; [done|]]. intros r' j s c _. apply Hmark.
  - pose proof (work_before_connect st (OpDestroy sid callback) w Hconn) as Hwork.
    cbn [work] in Hwork. rewrite Hwork. cbn [snd].
    split; [apply keeps_payloads_refl | split; [done | by intros r']].
Qed.

(** Whichever soft delete the combined promise rejects with, it is one that
    the repository rejected; it resolves only when none was rejected. *)
Lemma soft_deletes_outcome (sids : list string) : ∀ w,
  match (Promise_all ((λ x, await (SoftDelete x)) <$> sids) w).1 with
  | Returned _ => ∀ i, (i < length sids)%nat → storage_fault (ticks w + i) = None
  | Threw e => ∃ i, (i < length sids)%nat ∧ storage_fault (ticks w + i) = Some e
  end.
Proof.
  induction sids as [|x rest IH]; intros w.
  - cbn. intros i Hi. lia.
  - cbn [fmap list_fmap Promise_all length].
    destruct (await_soft_delete x w) as (Hk1 & _ & Hone).
    destruct (await (SoftDelete x) w) as [o w1]. cbn [fst snd] in Hk1, Hone.
    specialize (IH w1).
    change (list_fmap string (M (list ISession)) (λ x, await (SoftDelete x)) rest)
      with ((λ x, await (SoftDelete x)) <$> rest) in *.
    destruct (Promise_all ((λ x, await (SoftDelete x)) <$> rest) w1) as [os w2].
    cbn [fst snd] in *. rewrite Hk1 in IH.
    destruct (storage_fault (ticks w)) as [e|] eqn:Hfault; destruct Hone as [-> _].
    + cbn. exists 0%nat. rewrite Nat.add_0_r. split; [lia | done].
    + destruct os as [l|e]; cbn.
      * intros [|i] Hi; [by rewrite Nat.add_0_r|].
        replace (ticks w + S i)%nat with (S (ticks w) + i)%nat by lia. apply IH. lia.
      * destruct IH as (i & Hi & He). exists (S i). split; [lia|].
        by replace (ticks w + S i)%nat with (S (ticks w) + i)%nat by lia.
Qed.

(** X5. [destroy] starts the soft delete of every id before it awaits any:
    on a connected store it issues one soft delete per id, in order, before
    the callback is invoked, even when some are rejected. When none is
    rejected the callback is invoked with no argument. When some are
    rejected the callback is invoked with the error of one of the rejected
    calls, which then goes to the secondary channel; when exactly one is
    rejected, that error is its error. Which of several rejections is the
    one reported is not stated. *)
Theorem destroy_starts_every_soft_delete
    (st : TypeormStore) (r : Repository) (sid : SidArg) (cb : Callback) (w : World) :
  repository st = Some r →
  let after := destroy st sid (Some cb) w in
  let issued := Issued ∘ SoftDelete <$> sids_of sid in
  let rejected i := is_Some (storage_fault (ticks w + i)) in
  (∃ rest, events after.2 = events w ++ issued ++ rest ∧ ∀ s, Issued s ∉ rest) ∧
  ((∀ i, (i < length (sids_of sid))%nat → ¬ rejected i) →
     ∃ rest, events after.2 = events w ++ issued ++ Called no_arguments :: rest) ∧
  ((∃ i, (i < length (sids_of sid))%nat ∧ rejected i) →
     ∃ i e rest, (i < length (sids_of sid))%nat ∧ storage_fault (ticks w + i) = Some e ∧
                 events after.2 = events w ++ issued ++ Called (with_error e) :: rest ∧
                 (cb (with_error e) = None → rest = [secondary st e])) ∧
  (∀ i e, (i < length (sids_of sid))%nat → storage_fault (ticks w + i) = Some e →
          (∀ j, (j < length (sids_of sid))%nat → j ≠ i → ¬ rejected j) →
          cb (with_error e) = None →
          events after.2 = events w ++ issued ++ [Called (with_error e); secondary st e]).
Proof.
  intros Hconn after issued rejected. subst after.
  change (destroy st sid (Some cb)) with (perform st (OpDestroy sid (Some cb))).
  destruct (perform_after_work st (OpDestroy sid (Some cb)) w) as (_ & _ & rest & Hev & Hrest).
  pose proof (destroy_work_run st r sid w Hconn) as Hwork.
  destruct (soft_deletes_run (sids_of sid) w) as (_ & He1 & _).
  pose proof (soft_deletes_outcome (sids_of sid) w) as Hout.
  rewrite bind_run in Hwork. fold issued in He1.
  assert (∀ e w1, destroy_work st sid w = (Threw e, w1) → events w1 = events w ++ issued →
            ∃ tail, events (perform st (OpDestroy sid (Some cb)) w).2
                    = events w ++ issued ++ Called (with_error e) :: tail
                    ∧ (cb (with_error e) = None → tail = [secondary st e])) as Hreport.
  { intros e w1 Hthrew Hw1.
    rewrite perform_facade, try_catch_run, bind_run. cbn [work]. rewrite Hthrew.
    pose proof (catch_block st (Some cb) (with_error e) e w1) as (_ & _ & Hc).
    cbn [callback_of error_arguments]. destruct (cb (with_error e)) as [e'|].
    - cbv zeta in Hc. rewrite Hc. cbn [snd events]. exists []. split; [|done].
      by rewrite Hw1, <- app_assoc.
    - exists [secondary st e]. split; [|done]. by rewrite Hc, Hw1, <- app_assoc. }
  destruct (Promise_all _ w) as [[xs|e0] w1] eqn:Hall; cbn [fst snd] in *.
  - change (destroy_work st sid w = (Returned no_arguments, w1)) in Hwork.
    cbn [work] in Hev. rewrite Hwork in Hev. cbn [snd] in Hev.
    split; [exists rest; by rewrite Hev, He1, <- app_assoc|]. split; [|split].
    + intros _.
      destruct (perform_success st (OpDestroy sid (Some cb)) cb no_arguments w w1)
        as [[rest' Hev'] _]; [done..|].
      exists rest'. by rewrite Hev', He1, <- app_assoc.
    + intros (i & Hi & [e He]). by rewrite (Hout i Hi) in He.
    + intros i e Hi He. by rewrite (Hout i Hi) in He.
  - cbn [work] in Hev. rewrite Hwork in Hev. cbn [snd] in Hev.
    destruct Hout as (i0 & Hi0 & He0).
    destruct (Hreport e0 w1 Hwork He1) as (tail & Htail & Hsecondary).
    split; [exists rest; by rewrite Hev, He1, <- app_assoc|]. split; [|split].
    + intros Hnone. destruct (Hnone i0 Hi0). by eexists.
    + intros _. by exists i0, e0, tail.
    + intros i e Hi He Hothers Hcb.
      destruct (decide (i0 = i)) as [->|Hne].
      * rewrite He in He0. injection He0 as <-. by rewrite Htail, (Hsecondary Hcb).
      * destruct (Hothers i0 Hi0 Hne). by eexists.
Qed.

(** X6. After a [destroy] that the repository accepted, [get] of one of the
    destroyed ids finds nothing: the callback is invoked with no error and no
    session, although the row of that id is still in the table. *)
Theorem destroy_then_get
    (st : TypeormStore) (r : Repository) (sid : SidArg) (s : string)
    (callback : option Callback) (cb : Callback) (w : World) :
  repository st = Some r →
  s ∈ sids_of sid →
  (∀ i, (i ≤ length (sids_of sid))%nat → storage_fault (ticks w + i) = None) →
  let w1 := (destroy st sid callback w).2 in
  let by_id := SelectFrom (andWhere (IdEq s) (live_rows (Date_now (ticks w1)))) in
  (∃ rest, events (get st s cb w1).2 = events w1 ++ Issued by_id :: Called no_arguments :: rest) ∧
  (is_Some (table w !! IdString s) → is_Some (table (get st s cb w1).2 !! IdString s)).
Proof.
  intros Hconn Hin Hnone w1 by_id.
  destruct (destroy_soft_deletes st sid callback w) as (Hkeep & _ & Hmark). fold w1 in Hkeep, Hmark.
  assert (ticks w1 = (ticks w + length (sids_of sid))%nat) as Hk1.
  { subst w1. change (destroy st sid callback) with (perform st (OpDestroy sid callback)).
    destruct (perform_after_work st (OpDestroy sid callback) w) as (_ & -> & _).
    cbn [work]. rewrite (destroy_work_run st r) by done. rewrite bind_run.
    destruct (soft_deletes_run (sids_of sid) w) as (Hk & _).
    by destruct (Promise_all _ w) as [[xs|e] w2]. }
  assert (storage_fault (ticks w1) = None) as Hok by (rewrite Hk1; by apply Hnone).
  pose proof (get_work_run st r s w1 Hconn Hok) as Hget. cbv zeta in Hget.
  assert (get_work st s w1
          = (Returned no_arguments,
             {| table := table w1; ticks := S (ticks w1);
                events := events w1 ++ [Issued by_id] |})) as Hwork.
  { rewrite Hget. destruct (table w1 !! IdString s) as [c|] eqn:Hc; [|done].
    apply list_elem_of_lookup in Hin as [j Hj].
    destruct (Hmark r j s c) as [ts Hts]; [done..| |done|].
    { apply Hnone. apply lookup_lt_Some in Hj. lia. }
    unfold selects, live_rows. cbn. by rewrite Hts. }
  change (get st s cb) with (perform st (OpGet s cb)).
  split.
  - destruct (perform_success st (OpGet s cb) cb no_arguments w1 _ Hwork eq_refl)
      as [[rest Hev] _].
    exists rest. rewrite Hev. cbn [events]. by rewrite <- app_assoc.
  - destruct (perform_after_work st (OpGet s cb) w1) as (-> & _).
    cbn [work]. rewrite Hwork. cbn [snd table].
    specialize (Hkeep (IdString s)). intros [c Hc]. rewrite Hc in Hkeep.
    by destruct (table w1 !! IdString s).
Qed.

End Destroy.

Lemma destroy_soft_deletes_witness :
  ∃ c, table (@destroy (sample_host no_fault) connected_store (ManySids ["B"; "A"])
                (Some accepting) world_with_A).2 !! IdString "A" = Some c ∧
       is_Some (col_destroyedAt c).
Proof.
  pose proof (@destroy_soft_deletes (sample_host no_fault) connected_store
                (ManySids ["B"; "A"]) (Some accepting) world_with_A) as (_ & _ & Hmark).
  eexists. split; [vm_compute; reflexivity|].
  apply (Hmark SessionRepository 1%nat "A"); reflexivity.
Defined.

Lemma destroy_starts_every_soft_delete_witness :
  events (@destroy (sample_host second_call_fails) connected_store
            (ManySids ["A"; "B"; "C"]) (Some accepting) world_with_A).2
  = [Issued (SoftDelete "A"); Issued (SoftDelete "B"); Issued (SoftDelete "C");
     Called (with_error (QueryFailedError "connection lost"));
     Emitted "disconnect" (Some (QueryFailedError "connection lost"))].
Proof.
  pose proof (@destroy_starts_every_soft_delete (sample_host second_call_fails)
                connected_store SessionRepository (ManySids ["A"; "B"; "C"]) accepting
                world_with_A eq_refl) as (_ & _ & _ & Hone).
  apply (Hone 1%nat (QueryFailedError "connection lost")).
  - simpl. lia.
  - reflexivity.
  - intros j Hj Hne [e He]. simpl in Hj.
    destruct j as [|[|[|j]]]; [discriminate He | lia | discriminate He | lia].
  - reflexivity.
Defined.

Lemma destroy_then_get_witness :
  ∃ rest,
    events (@get (sample_host no_fault) connected_store "A" accepting
              (@destroy (sample_host no_fault) connected_store (OneSid "A") None
                 world_with_A).2).2
    = [Issued (SoftDelete "A");
       Issued (SelectFrom (andWhere (IdEq "A") (live_rows 1001)));
       Called no_arguments] ++ rest.
Proof.
  pose proof (@destroy_then_get (sample_host no_fault) connected_store SessionRepository
                (OneSid "A") "A" None accepting world_with_A eq_refl) as Hget.
  destruct Hget as [[rest Hev] _].
  - simpl. apply list_elem_of_here.
  - intros i Hi. reflexivity.
  - exists rest. exact Hev.
Defined.
(** ** What [set] and [touch] leave in the table *)

Lemma alter_lookup_insert (f : Columns → Columns) (k : Id) (c : Columns) (t : gmap Id Columns) :
  t !! k = Some c → alter f k t = <[k := f c]> t.
Proof.
  intros Hc. apply map_eq. intros k'. destruct (decide (k' = k)) as [->|Hne].
  - by rewrite lookup_alter_eq, lookup_insert_eq, Hc.
  - by rewrite lookup_alter_ne, lookup_insert_ne.
Qed.

Section Stored.
Context `{Host}.

(** The upsert when the repository accepts its two calls. *)
Lemma upsert_accepted (sid json : string) (ttl_ : Z) (w0 : World) :
  storage_fault (ticks w0) = None →
  storage_fault (S (ticks w0)) = None →
  let now := Date_now (S (ticks w0)) in
  let live := match table w0 !! IdString sid with
              | Some c => bool_decide (col_destroyedAt c = None)
              | None => true
              end in
  let second := match table w0 !! IdString sid with
                | Some _ => conditional_update sid json ttl_ now
                | None => insertion sid json ttl_ now
                end in
  upsert sid json ttl_ w0 =
    (Returned tt,
     {| table := if live then <[IdString sid := stored json ttl_ now]> (table w0)
                 else table w0;
        ticks := S (S (ticks w0));
        events := events w0 ++ [Issued (FindOneOrFail sid true); Issued second] |}).
Proof.
  intros Hok0 Hok1 now live second.
  unfold upsert, try_catch, await, now_. unfold mbind, M_bind, mret, M_ret.
  rewrite Hok0. cbn [execute orb].
  destruct (table w0 !! IdString sid) as [c|] eqn:Hc; cbn [fst snd ticks table events].
  - rewrite Hok1. cbn [execute fst snd where_id].
    rewrite (alter_lookup_insert _ _ c) by done.
    unfold matches. cbn [where_destroyedAtIsNull negb orb].
    subst live second now. unfold conditional_update. rewrite <- app_assoc. cbn [app].
    destruct (bool_decide (col_destroyedAt c = None)) eqn:Hlive.
    + apply bool_decide_eq_true in Hlive. unfold patch, stored. cbn. by rewrite Hlive.
    + by rewrite insert_id.
  - rewrite Hok1. cbn [execute id]. rewrite Hc.
    subst live second now. unfold insertion. by rewrite <- app_assoc.
Qed.

Lemma set_accepted
    (st : TypeormStore) (r : Repository) (sid : string) (session : SessionData)
    (callback : option Callback) (json : string) (ttl_ : Z) (w w0 : World) :
  repository st = Some r →
  JSON_stringify session = Returned json →
  getTTL st session (Some sid) = Returned ttl_ →
  cleanup st w = (Returned tt, w0) →
  storage_fault (ticks w0) = None →
  storage_fault (S (ticks w0)) = None →
  let after := (set st sid session callback w).2 in
  let live := match table w0 !! IdString sid with
              | Some c => bool_decide (col_destroyedAt c = None)
              | None => true
              end in
  ticks after = S (S (ticks w0)) ∧
  table after = if live then <[IdString sid := stored json ttl_ (Date_now (S (ticks w0)))]>
                               (table w0)
                else table w0.
Proof.
  intros Hconn Hjson Httl Hclean Hok0 Hok1 after live. subst after.
  change (set st sid session callback) with (perform st (OpSet sid session callback)).
  destruct (perform_after_work st (OpSet sid session callback) w) as (-> & -> & _).
  cbn [work]. rewrite (set_work_run st r sid session json ttl_ w w0) by done.
  rewrite bind_run, upsert_accepted by done. by split.
Qed.

(** X7. When [set] reaches the upsert and the repository accepts its calls,
    the table afterwards is the table after clean-up with one change at
    most: for an id with no row, or with a live row, the row of that id
    holds the new payload, expires [ttl] seconds after the clock reading of
    the write and is not soft-deleted; for an id whose row is soft-deleted
    nothing is written, the session stays destroyed. *)
Theorem set_stores_session
    (st : TypeormStore) (r : Repository) (sid : string) (session : SessionData)
    (callback : option Callback) (json : string) (ttl_ : Z) (w w0 : World) :
  repository st = Some r →
  JSON_stringify session = Returned json →
  getTTL st session (Some sid) = Returned ttl_ →
  cleanup st w = (Returned tt, w0) →
  storage_fault (ticks w0) = None →
  storage_fault (S (ticks w0)) = None →
  let t' := table (set st sid session callback w).2 in
  (∀ c, table w0 !! IdString sid = Some c → is_Some (col_destroyedAt c) → t' = table w0) ∧
  ((∀ c, table w0 !! IdString sid = Some c → col_destroyedAt c = None) →
     t' = <[IdString sid := stored json ttl_ (Date_now (S (ticks w0)))]> (table w0)).
Proof.
  intros Hconn Hjson Httl Hclean Hok0 Hok1 t'. subst t'.
  destruct (set_accepted st r sid session callback json ttl_ w w0) as [_ ->]; [done..|].
  split.
  - intros c Hc [ts Hts]. rewrite Hc. by rewrite bool_decide_eq_false_2 by congruence.
  - intros Hlive. destruct (table w0 !! IdString sid) as [c|]; [|done].
    by rewrite bool_decide_eq_true_2 by eauto.
Qed.

(** X8. [set] followed by [get] of the same id, for an id that is not
    soft-deleted: while the clock reads less than the expiry written by
    [set], [get] hands the callback what [JSON.parse] makes of the stored
    payload; from the expiry on, it finds nothing. *)
Theorem set_then_get
    (st : TypeormStore) (r : Repository) (sid : string) (session v : SessionData)
    (callback : option Callback) (cb : Callback) (json : string) (ttl_ : Z) (w w0 : World) :
  repository st = Some r →
  JSON_stringify session = Returned json →
  JSON_parse json = Returned v →
  getTTL st session (Some sid) = Returned ttl_ →
  cleanup st w = (Returned tt, w0) →
  (∀ i, (i ≤ 2)%nat → storage_fault (ticks w0 + i) = None) →
  (∀ c, table w0 !! IdString sid = Some c → col_destroyedAt c = None) →
  let w1 := (set st sid session callback w).2 in
  let expiry := Date_now (S (ticks w0)) + ttl_ * 1000 in
  let by_id := SelectFrom (andWhere (IdEq sid) (live_rows (Date_now (ticks w1)))) in
  (Date_now (ticks w1) < expiry →
     ∃ rest, events (get st sid cb w1).2
             = events w1 ++ Issued by_id :: Called (with_result v) :: rest) ∧
  (expiry ≤ Date_now (ticks w1) →
     ∃ rest, events (get st sid cb w1).2
             = events w1 ++ Issued by_id :: Called no_arguments :: rest).
Proof.
  intros Hconn Hjson Hparse Httl Hclean Hok Hlive w1 expiry by_id.
  destruct (set_accepted st r sid session callback json ttl_ w w0) as [Hk Ht]; [done..| | |].
  { specialize (Hok 0%nat). rewrite Nat.add_0_r in Hok. apply Hok. lia. }
  { specialize (Hok 1%nat). rewrite Nat.add_1_r in Hok. apply Hok. lia. }
  fold w1 in Hk, Ht.
  assert (table w1 !! IdString sid
          = Some (stored json ttl_ (Date_now (S (ticks w0))))) as Hrow.
  { rewrite Ht. destruct (table w0 !! IdString sid) as [c|] eqn:Hc.
    - rewrite bool_decide_eq_true_2 by eauto. by rewrite lookup_insert_eq.
    - by rewrite lookup_insert_eq. }
  assert (storage_fault (ticks w1) = None) as Hok1.
  { rewrite Hk. specialize (Hok 2%nat).
    replace (ticks w0 + 2)%nat with (S (S (ticks w0))) in Hok by lia. apply Hok. lia. }
  pose proof (get_work_run st r sid w1 Hconn Hok1) as Hget. cbv zeta in Hget.
  rewrite Hrow in Hget. unfold selects, live_rows in Hget.
  cbn [sel_withDeleted sel_where where_ createQueryBuilder_session row_of stored
       destroyedAt expiredAt col_json col_expiredAt col_destroyedAt snd fst forallb
       cond_holds orb] in Hget.
  rewrite bool_decide_eq_true_2, Hparse in Hget by done. fold expiry in Hget.
  change (get st sid cb) with (perform st (OpGet sid cb)).
  split; intros Hclock.
  - assert ((Date_now (ticks w1) <? expiry) = true) as Hlt by by apply Z.ltb_lt.
    rewrite Hlt in Hget. cbn [andb] in Hget.
    destruct (perform_success st (OpGet sid cb) cb _ w1 _ Hget eq_refl) as [[rest Hev] _].
    exists rest. rewrite Hev. cbn [events]. by rewrite <- app_assoc.
  - assert ((Date_now (ticks w1) <? expiry) = false) as Hlt by (apply Z.ltb_ge; lia).
    rewrite Hlt in Hget. cbn [andb] in Hget.
    destruct (perform_success st (OpGet sid cb) cb _ w1 _ Hget eq_refl) as [[rest Hev] _].
    exists rest. rewrite Hev. cbn [events]. by rewrite <- app_assoc.
Qed.

(** X9. [touch] followed by [get]: a row that is not soft-deleted is handed
    out again once [touch] has moved its expiry past the clock, whether or
    not it had expired before the [touch]. *)
Theorem touch_then_get
    (st : TypeormStore) (r : Repository) (sid : string) (session v : SessionData)
    (callback : option Callback) (cb : Callback) (c : Columns) (ttl_ : Z) (w : World) :
  repository st = Some r →
  getTTL st session None = Returned ttl_ →
  storage_fault (ticks w) = None →
  storage_fault (S (ticks w)) = None →
  table w !! IdString sid = Some c →
  col_destroyedAt c = None →
  JSON_parse (col_json c) = Returned v →
  Date_now (S (ticks w)) < Date_now (ticks w) + ttl_ * 1000 →
  let w1 := (touch st sid session callback w).2 in
  let by_id := SelectFrom (andWhere (IdEq sid) (live_rows (Date_now (ticks w1)))) in
  ∃ rest, events (get st sid cb w1).2
          = events w1 ++ Issued by_id :: Called (with_result v) :: rest.
Proof.
  intros Hconn Httl Hok0 Hok1 Hc Hlive Hparse Hclock w1 by_id.
  assert (ticks w1 = S (ticks w) ∧
          table w1 !! IdString sid
          = Some {| col_json := col_json c;
                    col_expiredAt := Date_now (ticks w) + ttl_ * 1000;
                    col_destroyedAt := None |}) as [Hk Hrow].
  { subst w1. change (touch st sid session callback) with (perform st (OpTouch sid session callback)).
    destruct (perform_after_work st (OpTouch sid session callback) w) as (-> & -> & _).
    cbn [work]. rewrite (touch_work_run st r sid session ttl_) by done. rewrite bind_run.
    destruct (await_run (expiry_update sid ttl_ (Date_now (ticks w))) w) as (_ & _ & _ & Hrun).
    rewrite (Hrun Hok0). unfold expiry_update. cbn [execute where_id snd fst table ticks mret M_ret].
    split; [done|]. rewrite lookup_alter_eq, Hc. unfold patch. cbn. by rewrite Hlive. }
  assert (storage_fault (ticks w1) = None) as Hok by by rewrite Hk.
  pose proof (get_work_run st r sid w1 Hconn Hok) as Hget. cbv zeta in Hget.
  rewrite Hrow in Hget. unfold selects, live_rows in Hget.
  cbn [sel_withDeleted sel_where where_ createQueryBuilder_session row_of
       destroyedAt expiredAt col_json col_expiredAt col_destroyedAt snd fst forallb
       cond_holds orb] in Hget.
  rewrite bool_decide_eq_true_2, Hparse in Hget by done.
  assert ((Date_now (ticks w1) <? Date_now (ticks w) + ttl_ * 1000) = true) as Hlt
    by (rewrite Hk; by apply Z.ltb_lt).
  rewrite Hlt in Hget. cbn [andb] in Hget.
  change (get st sid cb) with (perform st (OpGet sid cb)).
  destruct (perform_success st (OpGet sid cb) cb _ w1 _ Hget eq_refl) as [[rest Hev] _].
  exists rest. rewrite Hev. cbn [events]. by rewrite <- app_assoc.
Qed.

End Stored.

Lemma set_stores_session_witness :
  table (@set (sample_host no_fault) connected_store "B" sample_session (Some accepting)
           world_with_A).2
  = <[IdString "B" := stored sample_json 60 1001]> (table world_with_A).
Proof.
  pose proof (@set_stores_session (sample_host no_fault) connected_store SessionRepository
                "B" sample_session (Some accepting) sample_json 60 world_with_A world_with_A
                eq_refl eq_refl eq_refl eq_refl eq_refl eq_refl) as [_ Hfresh].
  apply Hfresh. intros c Hc. vm_compute in Hc. discriminate Hc.
Defined.

Lemma set_then_get_witness :
  ∃ rest,
    events (@get (sample_host no_fault) connected_store "B" accepting
              (@set (sample_host no_fault) connected_store "B" sample_session None
                 world_with_A).2).2
    = [Issued (FindOneOrFail "B" true); Issued (insertion "B" sample_json 60 1001);
       Issued (SelectFrom (andWhere (IdEq "B") (live_rows 1002)));
       Called (with_result sample_session)] ++ rest.
Proof.
  pose proof (@set_then_get (sample_host no_fault) connected_store SessionRepository
                "B" sample_session sample_session None accepting sample_json 60
                world_with_A world_with_A eq_refl eq_refl eq_refl eq_refl eq_refl) as Hget.
  destruct Hget as [[rest Hev] _].
  - intros i Hi. reflexivity.
  - intros c Hc. vm_compute in Hc. discriminate Hc.
  - vm_compute. reflexivity.
  - exists rest. exact Hev.
Defined.

Lemma touch_then_get_witness :
  ∃ rest,
    events (@get (sample_host no_fault) connected_one_minute_store "A" accepting
              (@touch (sample_host no_fault) connected_one_minute_store "A" sample_session
                 None world_with_expired_A).2).2
    = [Issued (expiry_update "A" 60 1000);
       Issued (SelectFrom (andWhere (IdEq "A") (live_rows 1001)));
       Called (with_result sample_session)] ++ rest.
Proof.
  pose proof (@touch_then_get (sample_host no_fault) connected_one_minute_store
                SessionRepository "A" sample_session sample_session None accepting
                {| col_json := sample_json; col_expiredAt := 500; col_destroyedAt := None |}
                60 world_with_expired_A eq_refl eq_refl eq_refl eq_refl eq_refl eq_refl
                eq_refl) as Hget.
  destruct Hget as [rest Hev].
  - vm_compute. reflexivity.
  - exists rest. exact Hev.
Defined.
(** ** What [cleanup] removes *)

Lemma elem_of_expired_rows (n now : Z) (t : gmap Id Columns) (x : ISession) :
  x ∈ run_select (expired_rows n now) t →
  t !! id x = Some (columns_of x) ∧ expiredAt x ≤ now.
Proof.
  unfold run_select. cbn [expired_rows limit sel_limit].
  intros (i & Hi & _)%elem_of_take. apply list_elem_of_lookup_2 in Hi.
  apply elem_of_List_filter in Hi as [Hrow Hsel]. split; [by apply elem_of_rows|].
  unfold selects in Hsel. cbn in Hsel. rewrite andb_true_r in Hsel. by apply Z.leb_le.
Qed.

Lemma size_foldr_delete (t : gmap Id Columns) (l : list Id) :
  (size t ≤ size (foldr delete t l) + length l)%nat.
Proof.
  induction l as [|k l IH]; cbn [foldr length]; [lia|].
  rewrite map_size_delete. destruct (foldr delete t l !! k); cbn; lia.
Qed.

Lemma purge_subset (n now : Z) (t : gmap Id Columns) (k : Id) (c : Columns) :
  purge n now t !! k = Some c → t !! k = Some c.
Proof.
  unfold purge. destruct (decide (k ∈ id <$> run_select (expired_rows n now) t)) as [Hin|Hout].
  - by rewrite lookup_foldr_delete.
  - by rewrite lookup_foldr_delete_not_elem_of.
Qed.

Lemma purge_keeps_unexpired (n now : Z) (t : gmap Id Columns) (k : Id) (c : Columns) :
  t !! k = Some c → now < col_expiredAt c → purge n now t !! k = Some c.
Proof.
  intros Hc Hlive. unfold purge. rewrite lookup_foldr_delete_not_elem_of; [done|].
  intros (x & -> & Hx)%list_elem_of_fmap. apply elem_of_expired_rows in Hx as [Hrow Hexp].
  rewrite Hc in Hrow. injection Hrow as ->. cbn in Hlive. lia.
Qed.

Lemma purge_size (n now : Z) (t : gmap Id Columns) :
  (size t ≤ size (purge n now t) + Z.to_nat n)%nat.
Proof.
  unfold purge. etrans; [apply size_foldr_delete|]. apply Nat.add_le_mono_l.
  rewrite length_fmap. unfold run_select. cbn [expired_rows limit sel_limit].
  apply firstn_le_length.
Qed.

Lemma purge_complete (n now : Z) (t : gmap Id Columns) (k : Id) (c : Columns) :
  (expired_count now t ≤ Z.to_nat n)%nat →
  purge n now t !! k = Some c → now < col_expiredAt c.
Proof.
  intros Hfew Hc. destruct (Z.lt_ge_cases now (col_expiredAt c)) as [|Hexp]; [done|].
  exfalso. pose proof (purge_subset _ _ _ _ _ Hc) as Ht.
  unfold purge in Hc. rewrite lookup_foldr_delete in Hc; [done|].
  apply list_elem_of_fmap. exists (row_of (k, c)). split; [done|].
  unfold run_select. cbn [expired_rows limit sel_limit]. rewrite take_ge by exact Hfew.
  apply elem_of_List_filter. split.
  - apply elem_of_rows. cbn. rewrite Ht. by destruct c.
  - unfold selects. cbn. rewrite andb_true_r. by apply Z.leb_le.
Qed.

Lemma literal_nonempty (x : Id) : literal x ≠ "".
Proof.
  destruct x as [s|n]; [done|]. cbn [literal]. intros Hempty.
  pose proof (int_of_string_of_Z n) as Hn. rewrite Hempty in Hn. discriminate Hn.
Qed.

Lemma literal_list_nonempty (xs : list ISession) :
  xs ≠ [] → String.concat ", " ((λ x, literal (id x)) <$> xs) ≠ "".
Proof.
  destruct xs as [|x rest]; [done|]. intros _. cbn [fmap list_fmap String.concat].
  pose proof (literal_nonempty (id x)) as Hx.
  destruct (literal (id x)) as [|a s]; [done|].
  destruct ((λ x0 : ISession, literal (id x0)) <$> rest); [done|].
  by rewrite append_cons.
Qed.



Section Purge.
Context `{Host}.

Lemma cleanup_subquery_run (st : TypeormStore) (r : Repository) (n : Z) (w : World) :
  repository st = Some r →
  cleanupLimit st = Some n →
  0 < n →
  limitSubquery st = true →
  storage_fault (ticks w) = None →
  let now := Date_now (ticks w) in
  cleanup st w =
    (Returned tt,
     {| table := purge n now (table w); ticks := S (ticks w);
        events := events w ++ [Issued (DeleteFrom (InSubquery (expired_rows n now)))] |}).
Proof.
  intros Hconn Hlimit Hpos Hmode Hok now. unfold cleanup. rewrite Hlimit, Hmode.
  destruct n as [|p|p]; try lia.
  run. rewrite Hconn. cbn [falsy]. unfold await. by rewrite Hok.
Qed.

Lemma cleanup_enumerated_run
    (st : TypeormStore) (r : Repository) (n : Z) (w w1 : World) (xs : list ISession) :
  repository st = Some r →
  cleanupLimit st = Some n →
  0 < n →
  limitSubquery st = false →
  getMany (expired_rows n (Date_now (ticks w))) w = (Returned xs, w1) →
  xs ≠ [] →
  cleanup st w
  = (await (DeleteFrom (InLiterals (String.concat ", " ((λ x, literal (id x)) <$> xs))));;
     mret tt) w1.
Proof.
  intros Hconn Hlimit Hpos Hmode Hselect Hne. unfold cleanup. rewrite Hlimit, Hmode.
  destruct n as [|p|p]; try lia.
  unfold getRepository, now_. rewrite Hconn, !bind_run. cbn [mret M_ret].
  rewrite !bind_run, Hselect.
  assert ((0 <? length xs)%nat = true) as -> by (apply Nat.ltb_lt; destruct xs; [done|cbn; lia]).
  cbn [mret M_ret falsy].
  pose proof (literal_list_nonempty xs Hne) as Htext.
  destruct (String.eqb_spec (String.concat ", " ((λ x, literal (id x)) <$> xs)) "") as [|_];
    [done|].
  by rewrite !bind_run.
Qed.

(** X10. Clean-up with a nested select, on a connected store whose
    repository accepts the call, is one delete statement and no select. It
    only removes rows, and only rows expired at the clock reading of the
    call: a row that has not expired stays even when it is soft-deleted. It
    removes at most [cleanupLimit] rows, and when no more rows than that are
    expired, every row left has not expired. *)
Theorem cleanup_subquery_bounded_purge
    (st : TypeormStore) (r : Repository) (n : Z) (w : World) :
  repository st = Some r →
  cleanupLimit st = Some n →
  0 < n →
  limitSubquery st = true →
  storage_fault (ticks w) = None →
  let now := Date_now (ticks w) in
  let t' := table (cleanup st w).2 in
  events (cleanup st w).2
  = events w ++ [Issued (DeleteFrom (InSubquery (expired_rows n now)))] ∧
  (∀ k c, t' !! k = Some c → table w !! k = Some c) ∧
  (∀ k c, table w !! k = Some c → now < col_expiredAt c → t' !! k = Some c) ∧
  (size (table w) ≤ size t' + Z.to_nat n)%nat ∧
  ((expired_count now (table w) ≤ Z.to_nat n)%nat →
     ∀ k c, t' !! k = Some c → now < col_expiredAt c).
Proof.
  intros Hconn Hlimit Hpos Hmode Hok now t'. subst t'.
  rewrite (cleanup_subquery_run st r n w) by done. cbn [snd table events]. fold now.
  split; [done|]. split; [apply purge_subset|]. split; [apply purge_keeps_unexpired|].
  split; [apply purge_size|]. intros Hfew k c. by apply purge_complete.
Qed.


(** X12. In enumerated mode, when the select of candidates returns rows,
    [cleanup] goes on to the delete: the list it writes, the literals of the
    ids found joined by a comma and a space, is never the empty text, so the
    test on the list lets it through, and the select and that delete are the
    two statements issued. *)
Theorem cleanup_enumerated_deletes_candidates
    (st : TypeormStore) (r : Repository) (n : Z) (w w1 : World) (xs : list ISession) :
  repository st = Some r →
  cleanupLimit st = Some n →
  0 < n →
  limitSubquery st = false →
  getMany (expired_rows n (Date_now (ticks w))) w = (Returned xs, w1) →
  xs ≠ [] →
  let text := String.concat ", " ((λ x, literal (id x)) <$> xs) in
  text ≠ "" ∧
  falsy (Some (InLiterals text)) = false ∧
  events (cleanup st w).2
  = events w ++ [Issued (SelectFrom (expired_rows n (Date_now (ticks w))));
                 Issued (DeleteFrom (InLiterals text))].
Proof.
  intros Hconn Hlimit Hpos Hmode Hselect Hne text.
  pose proof (literal_list_nonempty xs Hne) as Htext. fold text in Htext.
  split; [done|]. split; [by apply String.eqb_neq|].
  rewrite (cleanup_enumerated_run st r n w w1 xs) by done. fold text.
  rewrite bind_ret_events.
  destruct (await_run (DeleteFrom (InLiterals text)) w1) as (_ & -> & _).
  destruct (await_run (SelectFrom (expired_rows n (Date_now (ticks w)))) w) as (_ & Hev & _).
  unfold getMany in Hselect. rewrite Hselect in Hev. cbn [snd] in Hev.
  by rewrite Hev, <- app_assoc.
Qed.

End Purge.

Lemma cleanup_subquery_bounded_purge_witness :
  table (@cleanup (sample_host no_fault) subquery_store world_with_stale_rows).2
    !! IdString "gone"
  = Some {| col_json := sample_json; col_expiredAt := 90000; col_destroyedAt := Some 950 |}.
Proof.
  pose proof (@cleanup_subquery_bounded_purge (sample_host no_fault) subquery_store
                SessionRepository 10 world_with_stale_rows eq_refl eq_refl eq_refl eq_refl
                eq_refl) as (_ & _ & Hkeep & _).
  apply Hkeep.
  - vm_compute. reflexivity.
  - vm_compute. reflexivity.
Defined.


Lemma cleanup_enumerated_deletes_candidates_witness :
  events (@cleanup (sample_host no_fault) enumerating_store world_with_stale_rows).2
  = [Issued (SelectFrom (expired_rows 10 1000));
     Issued (DeleteFrom
               (InLiterals
                  (String.concat ", "
                     ((λ x, literal (id x))
                        <$> run_select (expired_rows 10 1000) (table world_with_stale_rows)))))].
Proof.
  refine (proj2 (proj2 (@cleanup_enumerated_deletes_candidates (sample_host no_fault)
                          enumerating_store SessionRepository 10 world_with_stale_rows _ _
                          eq_refl eq_refl eq_refl eq_refl eq_refl _))).
  intros Hnil. vm_compute in Hnil. discriminate Hnil.
Defined.

(** The list that enumerated clean-up writes for the two expired rows of the
    sample table; the quote inside the second id is escaped. *)
Example sample_literal_list :
  ∃ a b,
    (λ x, literal (id x)) <$> run_select (expired_rows 10 1000) (table world_with_stale_rows)
    = [a; b] ∧
    (a = "'old'" ∧ b = String quote ("it" +:+ String backslash "'s'")
     ∨ b = "'old'" ∧ a = String quote ("it" +:+ String backslash "'s'")).
Proof. vm_compute. eexists _, _. split; [reflexivity|]. first [by left | by right]. Qed.
(** ** What the operations never do *)

Lemma respects_ret {R : World → World → Prop} `{!PreOrder R} {A} (a : A) : respects R (mret a).
Proof. intros w. reflexivity. Qed.

Lemma respects_throw {R : World → World → Prop} `{!PreOrder R} {A} (e : Error) : respects R (throw (A := A) e).
Proof. intros w. reflexivity. Qed.

Lemma respects_lift {R : World → World → Prop} `{!PreOrder R} {A} (o : Outcome A) : respects R (lift o).
Proof. intros w. reflexivity. Qed.

Lemma respects_getRepository {R : World → World → Prop} `{!PreOrder R} (st : TypeormStore) : respects R (getRepository st).
Proof. unfold getRepository. destruct (repository st); [apply respects_ret | apply respects_throw]. Qed.

Lemma respects_bind {R : World → World → Prop} `{!PreOrder R} {A B} (m : M A) (k : A → M B) :
  respects R m → (∀ a, respects R (k a)) → respects R (m ≫= k).
Proof.
  intros Hm Hk w. rewrite bind_run. specialize (Hm w).
  destruct (m w) as [[a|e] w1]; [|done]. etrans; [exact Hm | apply Hk].
Qed.

Lemma respects_try_catch {R : World → World → Prop} `{!PreOrder R} {A} (body : M A) (handler : Error → M A) :
  respects R body → (∀ e, respects R (handler e)) → respects R (try_catch body handler).
Proof.
  intros Hm Hk w. rewrite try_catch_run. specialize (Hm w).
  destruct (body w) as [[a|e] w1]; [done|]. etrans; [exact Hm | apply Hk].
Qed.

Lemma respects_Promise_all {R : World → World → Prop} `{!PreOrder R} {A} (calls : list (M A)) :
  Forall (respects R) calls → respects R (Promise_all calls).
Proof.
  induction 1 as [|c rest Hc _ IH]; intros w; [reflexivity|].
  cbn [Promise_all]. specialize (Hc w). destruct (c w) as [o w1].
  specialize (IH w1). destruct (Promise_all rest w1) as [os w2].
  cbn [snd] in *. by etrans.
Qed.

#[local] Instance rows_kept_preorder : PreOrder rows_kept.
Proof. split; [by intros w k | intros w1 w2 w3 H12 H23 k Hk; by apply H23, H12]. Qed.

#[local] Instance issued_only_preorder (P : Statement → bool) : PreOrder (issued_only P).
Proof.
  split; [intros w s Hs; by left|].
  intros w1 w2 w3 H12 H23 s Hs. destruct (H23 s Hs) as [Hs2|]; [by apply H12 | by right].
Qed.

Section Never.
Context `{Host}.

Lemma respects_now {R : World → World → Prop} `{!PreOrder R} : respects R now_.
Proof. intros w. reflexivity. Qed.

Lemma rows_kept_await (s : Statement) : is_delete s = false → respects rows_kept (await s).
Proof.
  intros Hs w k Hk. unfold await. destruct (storage_fault (ticks w)); [done|].
  destruct s as [q|sid wd|cr p|row|sid|ids]; cbn [execute]; try done.
  - destruct (table w !! IdString sid) as [c|]; [|done].
    by destruct (wd || bool_decide (col_destroyedAt c = None)).
  - cbn [snd table]. by apply lookup_alter_is_Some.
  - destruct (table w !! id row) eqn:Hrow; [done|]. cbn [snd table].
    apply lookup_insert_is_Some'. by right.
  - cbn [snd table]. by apply lookup_alter_is_Some.
Qed.

Lemma issued_only_await (P : Statement → bool) (s : Statement) :
  P s = true → respects (issued_only P) (await s).
Proof.
  intros Hs w s'. destruct (await_run s w) as (_ & -> & _).
  rewrite elem_of_app, list_elem_of_singleton. intros [?|[= ->]]; [by left | by right].
Qed.

Create HintDb respects.

#[local] Hint Resolve respects_ret respects_throw respects_lift respects_getRepository
  respects_now rows_kept_preorder issued_only_preorder : respects.

(** Walks through a computation, one bind or handler at a time. *)
Ltac respects_steps :=
  repeat (first [apply respects_bind | apply respects_try_catch]; [|intros ?]);
  auto with respects.

Lemma rows_kept_cleanup (st : TypeormStore) :
  cleanup_enabled st = false → respects rows_kept (cleanup st).
Proof.
  unfold cleanup_enabled, cleanup. intros Hoff.
  destruct (cleanupLimit st) as [[|p|p]|]; try done; apply respects_ret.
Qed.

Lemma issued_only_cleanup (P : Statement → bool) (st : TypeormStore) :
  (∀ q, P (SelectFrom q) = cleanup_enabled st) →
  (∀ ids, P (DeleteFrom ids) = cleanup_enabled st) →
  respects (issued_only P) (cleanup st).
Proof.
  intros Hselect Hdelete. unfold cleanup_enabled in Hselect, Hdelete. unfold cleanup, getMany.
  destruct (cleanupLimit st) as [[|p|p]|]; try apply respects_ret.
  all: respects_steps.
  all: try (destruct (limitSubquery st); respects_steps; [by apply issued_only_await|];
            match goal with |- context [(0 <? length ?xs)%nat] =>
              destruct (0 <? length xs)%nat end; auto with respects).
  all: match goal with ids : option InList |- _ =>
         destruct (falsy ids); auto with respects; destruct ids; respects_steps end.
  all: by apply issued_only_await.
Qed.

(** The work of each operation issues only statements of its own. *)
Lemma issued_only_work (st : TypeormStore) (op : Operation) :
  respects (issued_only (own_statement st op)) (work st op).
Proof.
  destruct op as [sid cb|sid session cb|sid cb|sid session cb|cb]; cbn [work].
  - intros w. destruct (repository st) as [r|] eqn:Hconn;
      [|pose proof (work_before_connect st (OpGet sid cb) w Hconn) as Hwork;
        cbn [work] in Hwork; rewrite Hwork; reflexivity].
    unfold get_work. rewrite bind_run, (createQueryBuilder_run st r) by done.
    refine (respects_bind (getOne (andWhere (IdEq sid) (live_rows (Date_now (ticks w))))) _
              _ _ w).
    + unfold getOne. respects_steps. by apply issued_only_await.
    + intros [session|]; respects_steps.
  - unfold set_work. respects_steps.
    destruct (JSON_stringify session) as [json|er]; respects_steps.
    + by apply issued_only_cleanup.
    + apply issued_only_await. cbn. by rewrite String.eqb_refl.
    + apply issued_only_await. cbn. by rewrite String.eqb_refl.
    + apply issued_only_await. cbn. by apply bool_decide_eq_true.
  - unfold destroy_work. respects_steps.
    apply respects_Promise_all, Forall_fmap, Forall_forall. intros x Hx.
    apply issued_only_await. cbn. apply bool_decide_eq_true.
    by destruct sid.
  - unfold touch_work. respects_steps.
    apply issued_only_await. cbn. by rewrite String.eqb_refl.
  - intros w. destruct (repository st) as [r|] eqn:Hconn;
      [|pose proof (work_before_connect st (OpAll cb) w Hconn) as Hwork;
        cbn [work] in Hwork; rewrite Hwork; reflexivity].
    unfold all_work. rewrite bind_run, (createQueryBuilder_run st r) by done.
    refine (respects_bind (getMany (live_rows (Date_now (ticks w)))) _ _ _ w).
    + unfold getMany. by apply issued_only_await.
    + intros sessions. respects_steps.
Qed.

(** Only the clean-up of [set] takes rows out of the table. *)
Lemma rows_kept_work (st : TypeormStore) (op : Operation) :
  may_purge st op = false → respects rows_kept (work st op).
Proof.
  intros Hop.
  destruct op as [sid cb|sid session cb|sid cb|sid session cb|cb]; cbn [work].
  - unfold get_work, createQueryBuilder, getOne. respects_steps.
    + by apply rows_kept_await.
    + match goal with session : option ISession |- _ => destruct session end; respects_steps.
  - unfold set_work. respects_steps.
    destruct (JSON_stringify session) as [json|er]; respects_steps.
    + by apply rows_kept_cleanup.
    + by apply rows_kept_await.
    + by apply rows_kept_await.
    + by apply rows_kept_await.
  - unfold destroy_work. respects_steps.
    apply respects_Promise_all, Forall_fmap, Forall_forall. intros x Hx.
    by apply rows_kept_await.
  - unfold touch_work. respects_steps. by apply rows_kept_await.
  - unfold all_work, createQueryBuilder, getMany. respects_steps.
    by apply rows_kept_await.
Qed.

(** X13. No operation issues a statement that is not its own: [get] and
    [all] only select, and never among soft-deleted rows; [destroy] only
    soft-deletes, and only the ids it was given; [touch] only updates the
    expiry of its id, leaving the payload alone; [set] only looks up (soft-
    deleted rows included), updates (live rows only) or inserts the row of
    its id, and sends the select and the delete of clean-up only when
    [cleanupLimit] is set and not zero. *)
Theorem operations_issue_own_statements
    (st : TypeormStore) (op : Operation) (w : World) (s : Statement) :
  Issued s ∈ events (perform st op w).2 →
  Issued s ∈ events w ∨ own_statement st op s = true.
Proof.
  destruct (perform_after_work st op w) as (_ & _ & rest & -> & Hrest).
  rewrite elem_of_app. intros [Hin|Hin]; [|by apply Hrest in Hin].
  by apply (issued_only_work st op w).
Qed.

(** X14. Rows leave the table through the clean-up of [set] and through
    nothing else: after [get], [all], [destroy], [touch], and after [set] on
    a store whose [cleanupLimit] is unset or zero, every id that had a row
    still has one. With clean-up disabled the table never shrinks. *)
Theorem rows_leave_by_cleanup_only (st : TypeormStore) (op : Operation) (w : World) (k : Id) :
  may_purge st op = false →
  is_Some (table w !! k) →
  is_Some (table (perform st op w).2 !! k).
Proof.
  intros Hop. destruct (perform_after_work st op w) as (-> & _).
  by apply (rows_kept_work st op).
Qed.

End Never.

Lemma operations_issue_own_statements_witness :
  Issued (SoftDelete "A") ∈ events world_with_A ∨
  own_statement connected_store (OpDestroy (OneSid "A") None) (SoftDelete "A") = true.
Proof.
  apply (@operations_issue_own_statements (sample_host no_fault) connected_store
           (OpDestroy (OneSid "A") None) world_with_A (SoftDelete "A")).
  simpl. apply list_elem_of_here.
Defined.

Lemma rows_leave_by_cleanup_only_witness :
  is_Some (table (@perform (sample_host no_fault) connected_store
                    (OpDestroy (OneSid "A") None) world_with_A).2 !! IdString "A").
Proof.
  apply (@rows_leave_by_cleanup_only (sample_host no_fault) connected_store
           (OpDestroy (OneSid "A") None) world_with_A (IdString "A")).
  - reflexivity.
  - eexists. vm_compute. reflexivity.
Defined.
(** ** Malformed payloads, and the entries of [all] *)

(** Spreading an object over another: a key of the spread object takes its
    value from it, any other key keeps the value it had. *)
Lemma own_property_spread (k : string) (props : list (string * JsValue)) :
  ∀ acc, NoDup props.*1 →
  own_property k (foldl (λ acc kv, set_property kv.1 kv.2 acc) acc props)
  = if decide (k ∈ props.*1) then own_property k props else own_property k acc.
Proof.
  induction props as [|[k1 v1] rest IH]; intros acc Hnodup; [done|].
  cbn [fmap list_fmap fst] in Hnodup. apply NoDup_cons in Hnodup as [Hfresh Hnodup].
  cbn [foldl fst snd]. rewrite IH by done. cbn [own_property fmap list_fmap fst].
  rewrite own_property_set_property.
  destruct (String.eqb_spec k1 k) as [->|Hne].
  - rewrite decide_False by done. rewrite decide_True; [done | apply list_elem_of_here].
  - destruct (decide (k ∈ rest.*1)) as [Hin|Hout].
    + rewrite decide_True; [done | by apply list_elem_of_further].
    + rewrite decide_False; [done|]. by intros [->|]%elem_of_cons.
Qed.

Section Payloads.
Context `{Host}.

(** X15. [get] of a visible row whose payload [JSON.parse] rejects: the
    error of the parser is reported to the callback, with no session data,
    and then forwarded to the secondary channel; the select is the only
    statement issued and the table is unchanged. *)
Theorem get_malformed_payload
    (st : TypeormStore) (r : Repository) (sid : string) (cb : Callback)
    (c : Columns) (e : Error) (w : World) :
  repository st = Some r →
  storage_fault (ticks w) = None →
  table w !! IdString sid = Some c →
  visible (Date_now (ticks w)) (row_of (IdString sid, c)) →
  JSON_parse (col_json c) = Threw e →
  cb (with_error e) = None →
  let by_id := SelectFrom (andWhere (IdEq sid) (live_rows (Date_now (ticks w)))) in
  events (get st sid cb w).2
  = events w ++ [Issued by_id; Called (with_error e); secondary st e] ∧
  table (get st sid cb w).2 = table w.
Proof.
  intros Hconn Hok Hc Hvisible Hparse Hcb by_id.
  pose proof (get_work_run st r sid w Hconn Hok) as Hget. cbv zeta in Hget.
  apply selects_live_rows in Hvisible. rewrite Hc, Hvisible, Hparse in Hget.
  change (get st sid cb) with (perform st (OpGet sid cb)).
  rewrite perform_facade, try_catch_run, bind_run. cbn [work]. rewrite Hget.
  match goal with |- context [(_ ;; handleError st e) ?w1] =>
    pose proof (catch_block st (Some cb) (with_error e) e w1) as (Ht & _ & Hev) end.
  rewrite Hcb in Hev. cbn [callback_of error_arguments].
  split; [|exact Ht]. rewrite Hev. cbn [events]. by rewrite <- app_assoc.
Qed.

(** X16. [all] gives up at the first selected row whose payload
    [JSON.parse] rejects: the callback receives that error and an empty
    array, none of the sessions parsed before it, and the error goes on to
    the secondary channel. *)
Theorem all_stops_at_malformed_payload
    (st : TypeormStore) (r : Repository) (cb : Callback)
    (good : list ISession) (bad : ISession) (rest : list ISession) (e : Error) (w : World) :
  repository st = Some r →
  storage_fault (ticks w) = None →
  run_select (live_rows (Date_now (ticks w))) (table w) = good ++ bad :: rest →
  (∀ x, x ∈ good → returned (JSON_parse (json x)) = true) →
  JSON_parse (json bad) = Threw e →
  cb {| cb_err := Some e; cb_result := Some (JsArray []) |} = None →
  events (all st cb w).2
  = events w ++ [Issued (SelectFrom (live_rows (Date_now (ticks w))));
                 Called {| cb_err := Some e; cb_result := Some (JsArray []) |};
                 secondary st e].
Proof.
  intros Hconn Hok Hrows Hgood Hbad Hcb.
  pose proof (all_work_run st r w Hconn Hok) as Hall. cbv zeta in Hall.
  rewrite Hrows, (mapM_stops annotate good bad rest e) in Hall.
  - change (all st cb) with (perform st (OpAll cb)).
    rewrite perform_facade, try_catch_run, bind_run. cbn [work]. rewrite Hall.
    match goal with |- context [(_ ;; handleError st e) ?w1] =>
      pose proof (catch_block st (Some cb) (error_arguments (OpAll cb) e) e w1)
        as (_ & _ & Hev) end.
    cbn [error_arguments] in Hev. rewrite Hcb in Hev. cbn [callback_of error_arguments].
    rewrite Hev. cbn [events]. by rewrite <- app_assoc.
  - intros x Hx. unfold annotate. specialize (Hgood x Hx).
    by destruct (JSON_parse (json x)).
  - unfold annotate. by rewrite Hbad.
Qed.

(** X17. An entry of the array that [all] hands out is the parsed payload
    with the id of the row put first, and the payload spread over it: every
    property of the payload is in the entry with its value, and when the
    payload has an [id] property of its own, the entry's [id] is the
    payload's, not the id of the row. *)
Theorem all_entry_payload_overrides_id
    (session : ISession) (props : list (string * JsValue)) :
  JSON_parse (json session) = Returned (JsObject props) →
  NoDup props.*1 →
  ∃ entry,
    annotate session = Returned entry ∧
    get_prop entry "id"
    = Returned (if decide ("id" ∈ props.*1) then own_property "id" props
                else js_of_id (id session)) ∧
    ∀ k, k ≠ "id" → get_prop entry k = Returned (own_property k props).
Proof.
  intros Hparse Hnodup. unfold annotate. rewrite Hparse. cbn [mbind Outcome_bind mret Outcome_ret].
  eexists. split; [reflexivity|]. unfold with_id. cbn [get_prop spread].
  split.
  - rewrite own_property_spread by done. by destruct (decide ("id" ∈ props.*1)).
  - intros k Hk. rewrite own_property_spread by done.
    destruct (decide (k ∈ props.*1)) as [|Hout]; [done|]. cbn [own_property].
    destruct (String.eqb_spec "id" k) as [<-|_]; [done|].
    clear -Hout. induction props as [|[k1 v1] rest IH]; [done|].
    cbn [own_property]. destruct (String.eqb_spec k1 k) as [->|_].
    + destruct Hout. apply list_elem_of_here.
    + apply IH. intros Hin. apply Hout. by apply list_elem_of_further.
Qed.

End Payloads.

Lemma get_malformed_payload_witness :
  events (@get (sample_host no_fault) connected_store "A" accepting world_with_malformed_A).2
  = [Issued (SelectFrom (andWhere (IdEq "A") (live_rows 1000)));
     Called (with_error (SyntaxError "Unexpected token in JSON"));
     Emitted "disconnect" (Some (SyntaxError "Unexpected token in JSON"))].
Proof.
  refine (proj1 (@get_malformed_payload (sample_host no_fault) connected_store
                   SessionRepository "A" accepting
                   {| col_json := "{oops"; col_expiredAt := 31000; col_destroyedAt := None |}
                   (SyntaxError "Unexpected token in JSON") world_with_malformed_A
                   eq_refl eq_refl eq_refl _ eq_refl eq_refl)).
  split; [reflexivity | vm_compute; reflexivity].
Defined.

Lemma all_stops_at_malformed_payload_witness :
  events (@all (sample_host no_fault) connected_store accepting world_with_malformed_A).2
  = [Issued (SelectFrom (live_rows 1000));
     Called {| cb_err := Some (SyntaxError "Unexpected token in JSON");
               cb_result := Some (JsArray []) |};
     Emitted "disconnect" (Some (SyntaxError "Unexpected token in JSON"))].
Proof.
  apply (@all_stops_at_malformed_payload (sample_host no_fault) connected_store
           SessionRepository accepting []
           {| id := IdString "A"; json := "{oops"; expiredAt := 31000; destroyedAt := None |}
           [] (SyntaxError "Unexpected token in JSON") world_with_malformed_A).
  - reflexivity.
  - reflexivity.
  - vm_compute. reflexivity.
  - intros x Hx. by apply elem_of_nil in Hx.
  - reflexivity.
  - reflexivity.
Defined.

Lemma all_entry_payload_overrides_id_witness :
  ∃ entry,
    @annotate (host_parsing session_with_id)
      {| id := IdString "A"; json := sample_json; expiredAt := 31000; destroyedAt := None |}
    = Returned entry ∧
    get_prop entry "id" = Returned (JsString "forged").
Proof.
  destruct (@all_entry_payload_overrides_id (host_parsing session_with_id)
              {| id := IdString "A"; json := sample_json; expiredAt := 31000;
                 destroyedAt := None |}
              [("cookie", JsObject []); ("id", JsString "forged")] eq_refl)
    as (entry & Hentry & Hid & _).
  - apply (bool_decide_unpack _). vm_compute. exact I.
  - exists entry. split; [exact Hentry|]. rewrite Hid. vm_compute. reflexivity.
Defined.
(** ** Failures of [set] before the upsert *)

Section Aborted.
Context `{Host}.

(** X18. When the time to live cannot be computed, [set] performs no
    storage operation: no statement is issued, the table is unchanged, and
    the error of the computation is reported to the callback and then to the
    secondary channel. *)
Theorem set_ttl_failure
    (st : TypeormStore) (r : Repository) (sid : string) (session : SessionData)
    (callback : option Callback) (json : string) (e : Error) (w : World) :
  repository st = Some r →
  JSON_stringify session = Returned json →
  getTTL st session (Some sid) = Threw e →
  let after := (set st sid session callback w).2 in
  table after = table w ∧
  ticks after = ticks w ∧
  (∀ cb, callback = Some cb → cb (with_error e) = None →
     events after = events w ++ [Called (with_error e); secondary st e]) ∧
  (callback = None → events after = events w ++ [secondary st e]).
Proof.
  intros Hconn Hjson Httl after. subst after.
  assert (set_work st sid session w = (Threw e, w)) as Hwork.
  { unfold set_work, getRepository, lift. rewrite bind_run, Hconn. cbn [mret M_ret].
    by rewrite Hjson, bind_run, Httl. }
  change (set st sid session callback) with (perform st (OpSet sid session callback)).
  rewrite perform_facade, try_catch_run, bind_run. cbn [work]. rewrite Hwork.
  pose proof (catch_block st callback (with_error e) e w) as (Ht & Hk & Hev).
  cbn [callback_of error_arguments].
  split; [exact Ht | split; [exact Hk|]]. split.
  - intros cb -> Hcb. by rewrite Hcb in Hev.
  - by intros ->.
Qed.

(** X19. When the repository rejects the first call of the clean-up, [set]
    saves nothing: that call (the delete in subquery mode, the select of
    candidates in enumerated mode) is the only statement issued, no lookup,
    update or insert follows, the table is unchanged, and the rejection is
    reported to the callback and to the secondary channel. *)
Theorem set_stops_when_cleanup_fails
    (st : TypeormStore) (r : Repository) (sid : string) (session : SessionData)
    (callback : option Callback) (json : string) (ttl_ n : Z) (e : Error) (w : World) :
  repository st = Some r →
  JSON_stringify session = Returned json →
  getTTL st session (Some sid) = Returned ttl_ →
  cleanupLimit st = Some n →
  n ≠ 0 →
  storage_fault (ticks w) = Some e →
  let q := expired_rows n (Date_now (ticks w)) in
  let first := if limitSubquery st then DeleteFrom (InSubquery q) else SelectFrom q in
  let after := (set st sid session callback w).2 in
  table after = table w ∧
  (∀ cb, callback = Some cb → cb (with_error e) = None →
     events after = events w ++ [Issued first; Called (with_error e); secondary st e]) ∧
  (callback = None → events after = events w ++ [Issued first; secondary st e]).
Proof.
  intros Hconn Hjson Httl Hlimit Hn Hfault q first after. subst after.
  assert (cleanup st w = (Threw e, {| table := table w; ticks := S (ticks w);
                                      events := events w ++ [Issued first] |})) as Hclean.
  { subst first q. unfold cleanup. rewrite Hlimit.
    destruct (limitSubquery st); (destruct n as [|p|p]; [done| |]);
      run; rewrite Hconn; cbn [falsy]; unfold await; by rewrite Hfault. }
  assert (set_work st sid session w
          = (Threw e, {| table := table w; ticks := S (ticks w);
                         events := events w ++ [Issued first] |})) as Hwork.
  { unfold set_work, getRepository, lift. rewrite bind_run, Hconn. cbn [mret M_ret].
    by rewrite Hjson, !bind_run, Httl, bind_run, Hclean. }
  change (set st sid session callback) with (perform st (OpSet sid session callback)).
  rewrite perform_facade, try_catch_run, bind_run. cbn [work]. rewrite Hwork.
  match goal with |- context [(_ ;; handleError st e) ?w1] =>
    pose proof (catch_block st callback (with_error e) e w1) as (Ht & _ & Hev) end.
  cbn [callback_of error_arguments table events] in *.
  split; [exact Ht|]. split.
  - intros cb -> Hcb. rewrite Hcb in Hev. by rewrite Hev, <- app_assoc.
  - intros ->. by rewrite Hev, <- app_assoc.
Qed.

(** X20. A store built by the constructor without a [limitSubquery] option
    and then connected cleans up with a nested select: [connect] emits one
    "connect" event, and a clean-up that the repository accepts is one
    delete statement, with no select of candidates before it. *)
Theorem constructed_store_cleans_up_by_subquery
    (options : ITypeormStoreOptions) (repo : Repository) (n : Z) (w : World) :
  opt_limitSubquery options = None →
  opt_cleanupLimit options = Some n →
  0 < n →
  storage_fault (ticks w) = None →
  ∃ st w1,
    connect (new_TypeormStore options) repo w = (Returned st, w1) ∧
    events w1 = events w ++ [Emitted "connect" None] ∧
    table w1 = table w ∧
    events (cleanup st w1).2
    = events w1 ++ [Issued (DeleteFrom (InSubquery (expired_rows n (Date_now (ticks w)))))].
Proof.
  intros Hmode Hlimit Hpos Hok.
  destruct (connect_run (new_TypeormStore options) repo w)
    as (st & Hrun & Hconn & _ & _ & Hl & Hm).
  eexists st, _. split; [exact Hrun|]. split; [done|]. split; [done|].
  rewrite (cleanup_subquery_run st repo n); [done | done | | done | | done].
  - by rewrite Hl.
  - rewrite Hm. cbn. by rewrite Hmode.
Qed.

End Aborted.

Lemma set_ttl_failure_witness :
  events (@set (sample_host no_fault) connected_store "A" (JsObject []) (Some accepting)
            world_with_A).2
  = [Called (with_error
               (TypeError "Cannot read properties of undefined (reading 'maxAge')"));
     Emitted "disconnect"
       (Some (TypeError "Cannot read properties of undefined (reading 'maxAge')"))].
Proof.
  pose proof (@set_ttl_failure (sample_host no_fault) connected_store SessionRepository
                "A" (JsObject []) (Some accepting) "{}"
                (TypeError "Cannot read properties of undefined (reading 'maxAge')")
                world_with_A eq_refl eq_refl eq_refl) as (_ & _ & Hboth & _).
  exact (Hboth accepting eq_refl eq_refl).
Defined.

Lemma set_stops_when_cleanup_fails_witness :
  table (@set (sample_host first_call_fails) subquery_store "B" sample_session
           (Some accepting) world_with_stale_rows).2
  = table world_with_stale_rows.
Proof.
  refine (proj1 (@set_stops_when_cleanup_fails (sample_host first_call_fails) subquery_store
                   SessionRepository "B" sample_session (Some accepting) sample_json 60 10
                   (QueryFailedError "connection lost") world_with_stale_rows
                   eq_refl eq_refl eq_refl eq_refl _ eq_refl)).
  lia.
Defined.

Lemma constructed_store_cleans_up_by_subquery_witness :
  ∃ st w1,
    @connect
      (new_TypeormStore {| opt_cleanupLimit := Some 10; opt_limitSubquery := None;
                           opt_onError := None; opt_ttl := None |})
      SessionRepository world_with_stale_rows = (Returned st, w1) ∧
    events w1 = [Emitted "connect" None] ∧
    table w1 = table world_with_stale_rows ∧
    events (@cleanup (sample_host no_fault) st w1).2
    = events w1 ++ [Issued (DeleteFrom (InSubquery (expired_rows 10 1000)))].
Proof.
  apply (@constructed_store_cleans_up_by_subquery (sample_host no_fault)
           {| opt_cleanupLimit := Some 10; opt_limitSubquery := None;
              opt_onError := None; opt_ttl := None |}
           SessionRepository 10 world_with_stale_rows); reflexivity.
Defined.
(** ** The older copy of [set] *)

Section Older.
Context `{Host}.

(** X21. On a connected store the older [set] and the current one do the
    same, step for step, whenever clean-up is disabled, or runs with a nested
    select, or finds at least one expired row to enumerate; they part only
    when enumerated clean-up finds no candidate, where the older copy sends a
    delete with the list [NULL] and the current one sends none. *)
Theorem legacy_set_agrees
    (st : TypeormStore) (r : Repository) (sid : string) (session : SessionData)
    (callback : option Callback) (w : World) :
  repository st = Some r →
  (limitSubquery st = true ∨ cleanup_enabled st = false ∨
   ∃ n, cleanupLimit st = Some n ∧
        run_select (expired_rows n (Date_now (ticks w))) (table w) ≠ []) →
  Legacy.set st sid session callback w = set st sid session callback w.
Proof.
  intros Hconn Hcase. unfold Legacy.set, set. rewrite !try_catch_run.
  unfold getRepository, Legacy.this_repository. rewrite Hconn, (bind_run (mret r)).
  cbn [mret M_ret]. destruct (JSON_stringify session) as [json|er]; [|done].
  rewrite !bind_run. unfold lift. destruct (getTTL st session (Some sid)) as [ttl_|e]; [|done].
  match goal with |- context [try_catch ?b ?h] =>
    change (try_catch b h) with (upsert sid json ttl_) end.
  unfold cleanup, cleanup_enabled in *. unfold getRepository. rewrite Hconn.
  destruct (cleanupLimit st) as [[|p|p]|] eqn:Hlimit; try reflexivity.
  all: destruct (limitSubquery st) eqn:Hmode; [reflexivity|].
  all: destruct Hcase as [|[|(n & [= <-] & Hrows)]]; try done.
  all: run; unfold await; destruct (storage_fault (ticks w)) eqn:Hf; [reflexivity|].
  all: cbn [execute].
  all: pose proof (literal_list_nonempty _ Hrows) as Htext; apply String.eqb_neq in Htext.
  all: destruct (run_select _ (table w)) as [|x rest]; [done|].
  all: change (0 <? length (x :: rest))%nat with true; unfold falsy; cbv beta iota.
  all: rewrite Htext; reflexivity.
Qed.

(** X22. Before [connect] the older [set] fails on its first use of the
    repository, with the TypeError of reading a method of [undefined]
    ([createQueryBuilder] when clean-up is enabled; otherwise [insert],
    because the inner [catch] swallows the failed lookup) where the current
    [set] reports the not-connected error; no statement is issued either
    way, and the error goes to the callback and to the secondary channel. *)
Theorem legacy_set_before_connect
    (st : TypeormStore) (sid : string) (session : SessionData)
    (callback : option Callback) (json : string) (ttl_ : Z) (w : World) :
  repository st = None →
  JSON_stringify session = Returned json →
  getTTL st session (Some sid) = Returned ttl_ →
  let method := if cleanup_enabled st then "createQueryBuilder" else "insert" in
  let e := TypeError ("Cannot read properties of undefined (reading '" +:+ method +:+ "')") in
  let after := (Legacy.set st sid session callback w).2 in
  table after = table w ∧
  ticks after = ticks w ∧
  (∀ cb, callback = Some cb → cb (with_error e) = None →
     events after = events w ++ [Called (with_error e); secondary st e]) ∧
  (callback = None → events after = events w ++ [secondary st e]).
Proof.
  intros Hconn Hjson Httl method e after. subst after.
  unfold Legacy.set. rewrite try_catch_run.
  match goal with |- context [match ?body w with _ => _ end] =>
    assert (body w = (Threw e, w)) as -> end.
  { rewrite Hjson. unfold lift, Legacy.this_repository. rewrite Hconn, bind_run, Httl.
    subst e method. unfold cleanup_enabled.
    destruct (cleanupLimit st) as [[|p|p]|]; reflexivity. }
  pose proof (catch_block st callback (with_error e) e w) as (Ht & Hk & Hev).
  split; [exact Ht | split; [exact Hk|]]. split.
  - intros cb -> Hcb. by rewrite Hcb in Hev.
  - by intros ->.
Qed.

End Older.

Lemma legacy_set_agrees_witness :
  @Legacy.set (sample_host no_fault) enumerating_store "B" sample_session (Some accepting)
    world_with_stale_rows
  = @set (sample_host no_fault) enumerating_store "B" sample_session (Some accepting)
      world_with_stale_rows.
Proof.
  apply (@legacy_set_agrees (sample_host no_fault) enumerating_store SessionRepository).
  - reflexivity.
  - right. right. exists 10. split; [reflexivity|].
    intros Hnil. vm_compute in Hnil. discriminate Hnil.
Defined.

Lemma legacy_set_before_connect_witness :
  events (@Legacy.set (sample_host no_fault) (new_TypeormStore default_options) "A"
            sample_session (Some accepting) empty_world).2
  = [Called (with_error (TypeError "Cannot read properties of undefined (reading 'insert')"));
     Emitted "disconnect"
       (Some (TypeError "Cannot read properties of undefined (reading 'insert')"))].
Proof.
  pose proof (@legacy_set_before_connect (sample_host no_fault)
                (new_TypeormStore default_options) "A" sample_session (Some accepting)
                sample_json 60 empty_world eq_refl eq_refl eq_refl) as (_ & _ & Hboth & _).
  exact (Hboth accepting eq_refl eq_refl).
Defined.
